(** * toc_generator: a shallow embedding of [src/toc_generator.py]

    The module [toc_generator.py] scans Markdown files for heading rows and
    renders a nested bullet list with anchor links.  This development embeds
    the class [TableOfContents] in Rocq and proves the properties its
    specification states about it.

    Text model.  A Python [str] is a sequence of code points.  Here a
    character is an [ascii], read as one of the first 256 code points
    (Latin-1), and a [str] is a [list ascii].  The tables of the Python
    runtime that the program relies on ([str.lower], [str.isspace], the
    regular-expression classes [\w] and [\s], the unreserved set of
    [urllib.parse.quote]) are written out for exactly these 256 code
    points; on this range [str.lower] maps one character to one character
    and stays inside the range, so the model is closed under every
    operation of the program. *)

From Stdlib Require Import Ascii String List Bool Arith NArith ZArith Lia.
From Stdlib Require Import Permutation Sorted.
From Equations Require Import Equations.
Import ListNotations.

(** ** Python strings *)

Definition str : Type := list ascii.

(** String literals denote values of [str]. *)
Inductive str_literal : Set :=
| LitNil
| LitCons (c : ascii) (s : str_literal).

Fixpoint literal_of_bytes (l : list Byte.byte) : str_literal :=
  match l with
  | [] => LitNil
  | b :: l' => LitCons (ascii_of_byte b) (literal_of_bytes l')
  end.

Fixpoint bytes_of_literal (s : str_literal) : list Byte.byte :=
  match s with
  | LitNil => []
  | LitCons c s' => byte_of_ascii c :: bytes_of_literal s'
  end.

Declare Scope str_scope.
Delimit Scope str_scope with str.
Set Warnings "-via-type-remapping,-via-type-mismatch".
String Notation str literal_of_bytes bytes_of_literal
  (via str_literal mapping [[nil] => LitNil, [cons] => LitCons]) : str_scope.
Set Warnings "via-type-remapping,via-type-mismatch".
Open Scope str_scope.

Definition LF : ascii := "010"%char.
Definition CR : ascii := "013"%char.

Definition ord (c : ascii) : N := N_of_ascii c.

Definition in_range (lo hi : N) (c : ascii) : bool :=
  ((lo <=? ord c) && (ord c <=? hi))%N.

Definition is_char (d c : ascii) : bool := Ascii.eqb c d.

(** [str.isspace] on one code point, also the class [\s] of [re] and
    the default set of [str.strip]:
    U+0009..U+000D, U+001C..U+0020, U+0085, U+00A0. *)
Definition isspace (c : ascii) : bool :=
  in_range 9 13 c || in_range 28 32 c
  || (ord c =? 133)%N || (ord c =? 160)%N.

(** The class [\w] of [re] on a [str] pattern: alphanumeric code points
    and the underscore. *)
Definition isalnum (c : ascii) : bool :=
  in_range 48 57 c          (* 0-9 *)
  || in_range 65 90 c       (* A-Z *)
  || in_range 97 122 c      (* a-z *)
  || (ord c =? 170)%N       (* U+00AA *)
  || in_range 178 179 c     (* U+00B2, U+00B3 *)
  || (ord c =? 181)%N       (* U+00B5 *)
  || in_range 185 186 c     (* U+00B9, U+00BA *)
  || in_range 188 190 c     (* U+00BC..U+00BE *)
  || in_range 192 214 c     (* U+00C0..U+00D6 *)
  || in_range 216 246 c     (* U+00D8..U+00F6 *)
  || in_range 248 255 c.    (* U+00F8..U+00FF *)

Definition isword (c : ascii) : bool := isalnum c || is_char "_" c.

(** [str.lower] on one code point: the upper-case letters of the range
    are A-Z, U+00C0..U+00D6 and U+00D8..U+00DE, each 32 below its
    lower-case form. *)
Definition lower_char (c : ascii) : ascii :=
  if in_range 65 90 c || in_range 192 214 c || in_range 216 222 c
  then ascii_of_N (ord c + 32)
  else c.

(** [str.lower()] *)
Definition lower (s : str) : str := map lower_char s.

(** [str.startswith(prefix)] *)
Fixpoint startswith (prefix s : str) : bool :=
  match prefix, s with
  | [], _ => true
  | _ :: _, [] => false
  | p :: prefix', c :: s' => Ascii.eqb c p && startswith prefix' s'
  end.

(** [str.count(ch)] for a one-character needle. *)
Fixpoint count (ch : ascii) (s : str) : nat :=
  match s with
  | [] => 0
  | c :: s' => (if Ascii.eqb c ch then 1 else 0) + count ch s'
  end.

(** [str.replace(ch, "")] for a one-character needle: every occurrence
    is dropped. *)
Fixpoint remove_char (ch : ascii) (s : str) : str :=
  match s with
  | [] => []
  | c :: s' => if Ascii.eqb c ch then remove_char ch s' else c :: remove_char ch s'
  end.

(** [str.lstrip]: advance past the leading characters of the set. *)
Fixpoint lstrip (drop : ascii -> bool) (s : str) : str :=
  match s with
  | [] => []
  | c :: s' => if drop c then lstrip drop s' else s
  end.

(** [str.rstrip]: retreat past the trailing characters of the set. *)
Fixpoint rstrip (drop : ascii -> bool) (s : str) : str :=
  match s with
  | [] => []
  | c :: s' =>
      match rstrip drop s' with
      | [] => if drop c then [] else [c]
      | kept => c :: kept
      end
  end.

(** [str.strip(chars)]: the left index moves first, then the right one. *)
Definition strip_with (drop : ascii -> bool) (s : str) : str :=
  rstrip drop (lstrip drop s).

(** [str.strip()] *)
Definition strip (s : str) : str := strip_with isspace s.

(** [str.strip(chars)] with an explicit character set. *)
Definition strip_chars (chars : str) (s : str) : str :=
  strip_with (fun c => existsb (Ascii.eqb c) chars) s.

(** [" " * n] with a Python integer [n]: empty when [n <= 0]. *)
Definition str_mul (s : str) (n : Z) : str :=
  concat (repeat s (Z.to_nat n)).

(** ** The fragment of [re] the program uses

    Both patterns are a character class, once bare ([[^\w\s-]]) and once
    under [+] ([[-\s]+]). *)

Inductive regex : Type :=
| Class (cls : ascii -> bool)
| ClassPlus (cls : ascii -> bool).

(** Number of leading characters of [s] that belong to [cls]. *)
Fixpoint span (cls : ascii -> bool) (s : str) : nat :=
  match s with
  | [] => 0
  | c :: s' => if cls c then S (span cls s') else 0
  end.

(** A match attempt at a position whose first character is [c] and whose
    remaining text is [rest]: [Some k] when the pattern matches [c] and
    then [k] further characters (the quantifier is greedy), [None] when
    it does not match there.  Neither pattern matches the empty string. *)
Definition match_at (r : regex) (c : ascii) (rest : str) : option nat :=
  match r with
  | Class cls => if cls c then Some 0 else None
  | ClassPlus cls => if cls c then Some (span cls rest) else None
  end.

(** [re.sub(pattern, repl, string)]: scan from the left; where the
    pattern matches, emit [repl] and continue after the match, otherwise
    copy one character and move on. *)
Equations? re_sub (r : regex) (repl : str) (s : str) : str by wf (length s) lt :=
  re_sub r repl [] := [];
  re_sub r repl (c :: rest) with match_at r c rest := {
    | Some k := repl ++ re_sub r repl (skipn k rest);
    | None := c :: re_sub r repl rest }.
Proof. rewrite length_skipn. lia. Qed.

(** ** [TableOfContents.slugify] *)

Definition not_word_space_hyphen (c : ascii) : bool :=
  negb (isword c || isspace c || is_char "-" c).

Definition hyphen_or_space (c : ascii) : bool :=
  is_char "-" c || isspace c.

Definition slugify (text : str) : str :=
  let text := re_sub (Class not_word_space_hyphen) "" (lower text) in
  strip_chars "-_" (re_sub (ClassPlus hyphen_or_space) "-" text).


(** *** The algorithm of [slugify] in the words of the specification

    Lowercase the text; remove every character that is not a word
    character, whitespace or a hyphen; collapse every run of hyphens and
    whitespace into a single hyphen; strip leading and trailing hyphens
    and underscores. *)

Definition kept_by_slug (c : ascii) : bool :=
  isword c || isspace c || is_char "-" c.

(** [in_run] records that the previous character belonged to the run
    being collapsed, so that a run contributes its hyphen only once. *)
Fixpoint collapse_runs (in_run : bool) (s : str) : str :=
  match s with
  | [] => []
  | c :: s' =>
      if hyphen_or_space c
      then (if in_run then [] else ["-"%char]) ++ collapse_runs true s'
      else c :: collapse_runs false s'
  end.

Fixpoint drop_leading (drop : ascii -> bool) (s : str) : str :=
  match s with
  | [] => []
  | c :: s' => if drop c then drop_leading drop s' else c :: s'
  end.

Definition hyphen_or_underscore (c : ascii) : bool :=
  is_char "-" c || is_char "_" c.

Definition trim_ends (drop : ascii -> bool) (s : str) : str :=
  rev (drop_leading drop (rev (drop_leading drop s))).

Definition slugify_spec (text : str) : str :=
  trim_ends hyphen_or_underscore
    (collapse_runs false (filter kept_by_slug (map lower_char text))).

(** *** Normal forms of [slugify] *)

(** A text in which every hyphen-or-whitespace character is a hyphen
    that does not follow another hyphen; [after_hyphen] tells whether
    the text is preceded by one. *)
Fixpoint tidy (after_hyphen : bool) (s : str) : bool :=
  match s with
  | [] => true
  | c :: s' =>
      if hyphen_or_space c
      then is_char "-" c && negb after_hyphen && tidy true s'
      else tidy false s'
  end.

(** A character that [lower] and the deletion step leave alone. *)
Definition settled (c : ascii) : Prop :=
  lower_char c = c /\ kept_by_slug c = true.

(** ** Exceptions and results *)

Inductive exn : Set :=
| FileNotFoundError
| PermissionError
| IsADirectoryError
| UnicodeDecodeError
| ValueError.

Inductive result (A : Type) : Type :=
| Ok (a : A)
| Raise (e : exn).
Arguments Ok {A} a.
Arguments Raise {A} e.

Definition bind {A B} (r : result A) (k : A -> result B) : result B :=
  match r with
  | Ok a => k a
  | Raise e => Raise e
  end.

Notation "x <- r ;; k" := (bind r (fun x => k))
  (at level 61, r at next level, right associativity).

(** ** [pathlib.Path] (POSIX flavour)

    A path is its root ([""] for a relative path, ["/"] or ["//"]) and
    its components. *)

Record Path : Type := { root : str; parts : list str }.

Fixpoint str_eqb (a b : str) : bool :=
  match a, b with
  | [], [] => true
  | x :: a', y :: b' => Ascii.eqb x y && str_eqb a' b'
  | _, _ => false
  end.

(** [sep.join(items)] *)
Fixpoint join (sep : str) (items : list str) : str :=
  match items with
  | [] => []
  | [x] => x
  | x :: rest => x ++ sep ++ join sep rest
  end.

(** [str(path)] *)
Definition Path_str (p : Path) : str :=
  match root p ++ join "/" (parts p) with
  | [] => "."
  | s => s
  end.

(** The components of [l] that remain after the components [pre], when
    [l] starts with them. *)
Fixpoint strip_prefix (pre l : list str) : option (list str) :=
  match pre, l with
  | [], _ => Some l
  | _ :: _, [] => None
  | x :: pre', y :: l' => if str_eqb x y then strip_prefix pre' l' else None
  end.

(** [self.relative_to(other)]: [other] has to be an ancestor of [self]
    (same root, components a prefix), otherwise [ValueError]. *)
Definition relative_to (self other : Path) : result Path :=
  if str_eqb (root self) (root other) then
    match strip_prefix (parts other) (parts self) with
    | Some rest => Ok {| root := ""; parts := rest |}
    | None => Raise ValueError
    end
  else Raise ValueError.

(** ** [urllib.parse.quote] with its default [safe="/"] *)

(** The UTF-8 encoding of a code point below 256. *)
Definition utf8_encode_char (c : ascii) : list N :=
  if (ord c <? 128)%N then [ord c]
  else [N.lor 192 (N.shiftr (ord c) 6); N.lor 128 (N.land (ord c) 63)].

Definition utf8_encode (s : str) : list N := flat_map utf8_encode_char s.

(** Letters, digits and [_.-~] are never quoted; ["/"] is safe by default. *)
Definition quote_safe (b : N) : bool :=
  let c := ascii_of_N b in
  (b <? 128)%N
  && (in_range 65 90 c || in_range 97 122 c || in_range 48 57 c
      || existsb (Ascii.eqb c) "_.-~" || is_char "/" c).

Definition hex_digit (n : N) : ascii :=
  nth (N.to_nat n) "0123456789ABCDEF" "0"%char.

Definition quote_byte (b : N) : str :=
  if quote_safe b then [ascii_of_N b]
  else ["%"%char; hex_digit (b / 16); hex_digit (b mod 16)].

Definition quote (s : str) : str := flat_map quote_byte (utf8_encode s).

(** ** Files

    A file either cannot be opened, or is opened and delivers its decoded
    text; decoding may fail after part of the text, which then is all the
    reader sees before the exception. *)

Inductive file : Type :=
| CannotOpen (e : exn)
| Opened (text : str) (failure : option exn).

Record world : Type := {
  cwd : Path;                   (* Path.cwd() *)
  lookup : Path -> file         (* what file.open() finds *)
}.

(** Universal newlines of text mode: [\r\n] and [\r] are read as [\n]. *)
Fixpoint translate_newlines (s : str) : str :=
  match s with
  | [] => []
  | c :: s' =>
      if Ascii.eqb c CR then
        match s' with
        | d :: s'' => if Ascii.eqb d LF then LF :: translate_newlines s''
                      else LF :: translate_newlines s'
        | [] => [LF]
        end
      else c :: translate_newlines s'
  end.

(** The rows of a text: each row runs up to and including its [\n]; a
    last row without [\n] is a row as well.  [cur] is the row being read,
    in reverse. *)
Fixpoint rows_from (cur : str) (s : str) : list str :=
  match s with
  | [] => match cur with [] => [] | _ => [rev cur] end
  | c :: s' =>
      if Ascii.eqb c LF then rev (c :: cur) :: rows_from [] s'
      else rows_from (c :: cur) s'
  end.

(** [for row in f] over the whole text. *)
Definition rows_of (text : str) : list str :=
  rows_from [] (translate_newlines text).

(** ** Generators

    A generator that ends is the rows it yields, in order, and how it
    ends: exhausted, or with an exception. *)

Record generator (A : Type) : Type := {
  yielded : list A;
  ending : option exn
}.
Arguments yielded {A} g.
Arguments ending {A} g.

(** [for x in items: body], threading the loop's state. *)
Fixpoint for_each {A S : Type} (body : S -> A -> result S)
    (items : list A) (s : S) : result S :=
  match items with
  | [] => Ok s
  | x :: rest => s' <- body s x ;; for_each body rest s'
  end.

(** [for x in generator: body]: the body runs on every yielded value,
    then the generator's exception, if any, reaches the loop. *)
Definition for_generator {A S : Type} (body : S -> A -> result S)
    (g : generator A) (s : S) : result S :=
  s' <- for_each body (yielded g) s ;;
  match ending g with
  | None => Ok s'
  | Some e => Raise e
  end.

(** ** [class TableOfContents] *)

Definition DEFAULT_TITLE : str := "Table of contents".
Definition DEFAULT_HEADER_LEVELS : Z := 3.
Definition SPACES_INDENTATION : Z := 4.

(** The object as [__init__] leaves it: [source] is the list of paths
    (a single path when the constructor was given a string). *)
Record TableOfContents : Type := {
  source : list Path;
  title : str;
  header_levels : Z
}.

(** [has_multiple_sources] *)
Definition has_multiple_sources (self : TableOfContents) : bool :=
  1 <? length (source self).

(** The test of [find_headers] on one row. *)
Definition is_header (self : TableOfContents) (row : str) : bool :=
  startswith "#" row && (Z.of_nat (count "#" row) <=? header_levels self)%Z.

(** The loop of [find_headers]: rows that pass the test are yielded as
    they are. *)
Fixpoint scan_rows (self : TableOfContents) (rows : list str) : list str :=
  match rows with
  | [] => []
  | row :: rest =>
      if is_header self row then row :: scan_rows self rest
      else scan_rows self rest
  end.

(** [find_headers] *)
Definition find_headers (w : world) (self : TableOfContents) (f : Path)
  : generator str :=
  match lookup w f with
  | CannotOpen e => {| yielded := []; ending := Some e |}
  | Opened text failure =>
      {| yielded := scan_rows self (rows_of text); ending := failure |}
  end.

(** [get_relative_link].  [Path.cwd()] is the working directory of the
    world, which is taken to exist.  [parse.quote] encodes its argument
    as UTF-8; every string of this development (code points below 256)
    has such an encoding, so [quote] always returns here.  A file name
    that holds a lone surrogate (an undecodable byte of the file
    system) lies outside these strings: on it the program raises
    [UnicodeEncodeError]. *)
Definition get_relative_link (w : world) (f : Path) : result str :=
  relative_path <- relative_to f (cwd w) ;;
  Ok (quote (Path_str relative_path)).

(** The locals of [generate_item]. *)
Definition indentation_level (header : str) : Z :=
  Z.of_nat (count "#" header) - 1.

Definition indentation (header : str) : str :=
  str_mul (str_mul " " SPACES_INDENTATION) (indentation_level header).

Definition header_text (header : str) : str :=
  strip (remove_char "#" header).

(** [generate_item] *)
Definition generate_item (w : world) (header : str) (f : option Path)
  : result str :=
  let anchor := slugify (header_text header) in
  match f with
  | Some f =>
      rel_link <- get_relative_link w f ;;
      Ok (indentation header ++ "- [" ++ header_text header ++ "](./"
            ++ rel_link ++ "#" ++ anchor ++ ")" ++ [LF])
  | None =>
      Ok (indentation header ++ "- [" ++ header_text header ++ "](#"
            ++ anchor ++ ")" ++ [LF])
  end.

(** [generate_list] *)
Definition generate_list (w : world) (self : TableOfContents) : result str :=
  let content := "## " ++ title self ++ [LF] in
  for_each
    (fun content f =>
       for_generator
         (fun content header =>
            if has_multiple_sources self then
              item <- generate_item w header (Some f) ;; Ok (content ++ item)
            else
              item <- generate_item w header None ;; Ok (content ++ item))
         (find_headers w self f) content)
    (source self) content.

(** [markdown] *)
Definition markdown (w : world) (self : TableOfContents) : result str :=
  generate_list w self.


(** ** The constructors of the class

    [__init__] takes a file path as a string or a list of paths;
    [from_cwd] collects the files under the working directory that match
    a pattern and sorts them. *)

(** [str.split(sep)] for a one-character separator; [cur] is the piece
    being read, in reverse. *)
Fixpoint split_from (sep : ascii) (cur : str) (s : str) : list str :=
  match s with
  | [] => [rev cur]
  | c :: s' =>
      if Ascii.eqb c sep then rev cur :: split_from sep [] s'
      else split_from sep (c :: cur) s'
  end.

Definition split (sep : ascii) (s : str) : list str := split_from sep [] s.

(** The root of a path string and what follows it: exactly two leading
    slashes are a root of their own, any other number is ["/"]. *)
Definition splitroot (part : str) : str * str :=
  match part with
  | c :: _ =>
      if Ascii.eqb c "/" then
        let stripped := lstrip (is_char "/") part in
        if length part - length stripped =? 2 then ("//", stripped)
        else ("/", stripped)
      else ("", part)
  | [] => ("", part)
  end.

(** A component that a path keeps: neither empty nor ["."]. *)
Definition proper_component (x : str) : bool :=
  negb (str_eqb x "") && negb (str_eqb x ".").

(** [Path(s)] for a string [s]. *)
Definition Path_of_str (s : str) : Path :=
  let (rt, rel) := splitroot s in
  {| root := rt; parts := filter proper_component (split "/" rel) |}.

(** [TableOfContents.__init__]: [inl] is the [str] case of [source],
    [inr] the [list[Path]] case. *)
Definition init (src : str + list Path) (title : str) (header_levels : Z)
  : TableOfContents :=
  {| source := match src with
               | inl s => [Path_of_str s]
               | inr files => files
               end;
     title := title;
     header_levels := header_levels |}.

(** [<] on [str]: lexicographic, by code point. *)
Fixpoint str_ltb (a b : str) : bool :=
  match a, b with
  | _, [] => false
  | [], _ :: _ => true
  | x :: a', y :: b' =>
      if (ord x <? ord y)%N then true
      else if (ord y <? ord x)%N then false
      else str_ltb a' b'
  end.

(** [sorted(items, key=key)]: the stable sort by key, which uses only
    [<] on the keys.  An item goes before the first item already placed
    whose key is greater than its own. *)
Section Sorting.
Context {A K : Type} (key : A -> K) (ltb : K -> K -> bool).

Fixpoint insert_by (x : A) (l : list A) : list A :=
  match l with
  | [] => [x]
  | y :: l' =>
      if ltb (key x) (key y) then x :: l else y :: insert_by x l'
  end.

Definition sorted (items : list A) : list A :=
  fold_left (fun placed x => insert_by x placed) items [].
End Sorting.

(** [base / rel] for relative components [rel]. *)
Definition child (base : Path) (rel : list str) : Path :=
  {| root := root base; parts := parts base ++ rel |}.

(** What a recursive glob finds below a directory: for a pattern, the
    matches as components relative to the directory, in the order of
    the scan, or the exception of a pattern that is not accepted. *)
Definition tree : Type := str -> result (list (list str)).

(** [path.rglob(pattern)]: every match is a path below [path]. *)
Definition rglob (t : tree) (path : Path) (pattern : str)
  : result (list Path) :=
  found <- t pattern ;; Ok (map (child path) found).

(** [TableOfContents.from_cwd]; [sort] is the key function and [ltb]
    the order [<] of its values. *)
Definition from_cwd {K : Type} (t : tree) (w : world) (pattern title : str)
    (header_levels : Z) (sort : Path -> K) (ltb : K -> K -> bool)
  : result TableOfContents :=
  let path := cwd w in
  found <- rglob t path pattern ;;
  let files := sorted sort ltb found in
  Ok (init (inr files) title header_levels).

(** [from_cwd()] with every default: pattern ["*.md"], key [str]. *)
Definition from_cwd_default (t : tree) (w : world) : result TableOfContents :=
  from_cwd t w "*.md" DEFAULT_TITLE DEFAULT_HEADER_LEVELS Path_str str_ltb.

(** ** Vocabulary of the specification *)

(** A row qualifies as a heading when it starts with the marker and its
    markers, counted over the whole row, do not exceed the bound. *)
Definition heading_line (max_depth : Z) (row : str) : Prop :=
  (exists rest, row = "#"%char :: rest)
  /\ (Z.of_nat (count_occ ascii_dec row "#"%char) <= max_depth)%Z.

(** [extracted max_depth rows headers]: [headers] is [rows] with the
    rows that do not qualify left out, the others unchanged and in
    place. *)
Inductive extracted (max_depth : Z) : list str -> list str -> Prop :=
| extracted_nil : extracted max_depth [] []
| extracted_keep row rows headers :
    heading_line max_depth row ->
    extracted max_depth rows headers ->
    extracted max_depth (row :: rows) (row :: headers)
| extracted_skip row rows headers :
    ~ heading_line max_depth row ->
    extracted max_depth rows headers ->
    extracted max_depth (row :: rows) headers.

(** Number of space characters an item starts with. *)
Definition leading_spaces (item : str) : nat := span (is_char " ") item.

(** The title line of the rendered table. *)
Definition title_line (self : TableOfContents) : str :=
  "## " ++ title self ++ [LF].

(** One list item: [{indentation}- [{display text}]({link target})\n]. *)
Record item : Type := {
  item_indentation : str;
  item_text : str;
  item_target : str
}.

Definition render_item (it : item) : str :=
  item_indentation it ++ "- [" ++ item_text it ++ "](" ++ item_target it
    ++ ")" ++ [LF].

(** The recognized headings of a table, each with its source: sources
    in the order given, headings in the order of their rows. *)
Definition headings_in_order (w : world) (self : TableOfContents)
  : list (Path * str) :=
  flat_map (fun f => map (pair f) (yielded (find_headers w self f)))
           (source self).

(** The file argument [generate_list] passes to [generate_item]. *)
Definition file_argument (self : TableOfContents) (f : Path) : option Path :=
  if has_multiple_sources self then Some f else None.

(** The item of a heading in the table [self]. *)
Definition item_of (w : world) (self : TableOfContents)
    (entry : Path * str) (line : str) : Prop :=
  generate_item w (snd entry) (file_argument self (fst entry)) = Ok line.

(** A text in which a line feed can only be the last character, as in
    a row of a file. *)
Fixpoint lf_only_last (s : str) : bool :=
  match s with
  | [] => true
  | c :: s' =>
      match s' with
      | [] => true
      | _ :: _ => negb (Ascii.eqb c LF) && lf_only_last s'
      end
  end.

(** A text that is one line: it ends with its only line feed. *)
Definition one_line (line : str) : Prop :=
  exists body, line = body ++ [LF] /\ ~ In LF body.

(** A character that [quote] may produce. *)
Definition quoted_char (c : ascii) : Prop :=
  quote_safe (ord c) = true \/ c = "%"%char.

(** The two forms of a link target. *)
Definition bare_target (anchor : str) : str := "#" ++ anchor.

Definition file_target (rel_link anchor : str) : str :=
  "./" ++ rel_link ++ "#" ++ anchor.

(** [it] is the item of the heading [entry] in the table [self]: a bare
    target when the table has one source, a target qualified with the
    quoted path of the source relative to [cwd] when it has several. *)
Definition item_for (w : world) (self : TableOfContents)
    (entry : Path * str) (it : item) : Prop :=
  let anchor := slugify (header_text (snd entry)) in
  item_indentation it = indentation (snd entry)
  /\ item_text it = header_text (snd entry)
  /\ (length (source self) = 1 -> item_target it = bare_target anchor)
  /\ (2 <= length (source self) ->
      (exists rel,
          relative_to (fst entry) (cwd w) = Ok rel
          /\ item_target it = file_target (quote (Path_str rel)) anchor)
      /\ forall a, item_target it <> bare_target a).

(** A file whose rows can all be read. *)
Definition readable (fl : file) : Prop := exists text, fl = Opened text None.

(** A file whose reading raises [e], when it is opened or later. *)
Definition fails_with (fl : file) (e : exn) : Prop :=
  fl = CannotOpen e \/ exists text, fl = Opened text (Some e).

(** [row] is the line [line], with or without a line terminator. *)
Definition row_of_line (line row : str) : Prop :=
  row = line \/ row = line ++ [LF].

(** [mapM] in the exception monad: the results in order, or the first
    exception. *)
Fixpoint collect {A B : Type} (g : A -> result B) (l : list A)
  : result (list B) :=
  match l with
  | [] => Ok []
  | x :: l' => y <- g x ;; ys <- collect g l' ;; Ok (y :: ys)
  end.

(** The item lines one source contributes. *)
Definition source_lines (w : world) (self : TableOfContents) (f : Path)
  : result (list str) :=
  let g := find_headers w self f in
  lines <- collect (fun header => generate_item w header (file_argument self f))
                   (yielded g) ;;
  match ending g with
  | None => Ok lines
  | Some e => Raise e
  end.

(** The world [w] in which a relative path is looked up from the
    working directory, as the operating system does. *)
Definition resolving (w : world) : world :=
  {| cwd := cwd w;
     lookup := fun p =>
       lookup w (if str_eqb (root p) "" then child (cwd w) (parts p) else p) |}.


(** The table [self] over other files. *)
Definition with_sources (self : TableOfContents) (files : list Path)
  : TableOfContents :=
  {| source := files; title := title self;
     header_levels := header_levels self |}.

(** The item of a heading row in a table of one source. *)
Definition bare_item (header : str) : str :=
  indentation header ++ "- [" ++ header_text header ++ "](#"
    ++ slugify (header_text header) ++ ")" ++ [LF].

(** A world without files, for statements that read none. *)
Definition empty_world : world :=
  {| cwd := {| root := "/"; parts := [] |};
     lookup := fun _ => CannotOpen FileNotFoundError |}.

(** The table built with the default title and depth. *)
Definition default_table (sources : list Path) : TableOfContents :=
  {| source := sources; title := DEFAULT_TITLE;
     header_levels := DEFAULT_HEADER_LEVELS |}.

(** ** A sample directory

    [/w/docs] holds [a.md] and [b.md] with one heading each, [readme.md]
    with two headings among other rows, and [broken.md], whose decoding
    fails after its first row. *)

Definition Path_eqb (p q : Path) : bool :=
  str_eqb (Path_str p) (Path_str q).

Definition docs (name : str) : Path :=
  {| root := "/"; parts := ["w"; "docs"; name] |}.

Definition a_md : Path := docs "a.md".
Definition b_md : Path := docs "b.md".
Definition readme_md : Path := docs "readme.md".
Definition broken_md : Path := docs "broken.md".

Definition docs_world : world :=
  {| cwd := {| root := "/"; parts := ["w"; "docs"] |};
     lookup := fun p =>
       if Path_eqb p a_md then Opened ("# X" ++ [LF]) None
       else if Path_eqb p b_md then Opened ("# Y" ++ [LF]) None
       else if Path_eqb p readme_md then
         Opened ("# A" ++ [LF] ++ "intro" ++ [LF] ++ "## B" ++ [LF]
                   ++ "#### Deep" ++ [LF]) None
       else if Path_eqb p broken_md then
         Opened ("# Z" ++ [LF]) (Some UnicodeDecodeError)
       else CannotOpen FileNotFoundError |}.

(** The world [w] in which the file [p] holds [text]. *)
Definition holding (p : Path) (text : str) (w : world) : world :=
  {| cwd := cwd w;
     lookup := fun q => if Path_eqb q p then Opened text None else lookup w q |}.

(** [docs_world] with [notes.md], a file without heading rows. *)
Definition notes_md : Path := docs "notes.md".

Definition notes_world : world :=
  {| cwd := cwd docs_world;
     lookup := fun p =>
       if Path_eqb p notes_md
       then Opened ("plain text" ++ [LF] ++ " # not at the start" ++ [LF]) None
       else lookup docs_world p |}.

(** A character that can stand in a link target: no whitespace and no
    parenthesis. *)
Definition target_char (c : ascii) : bool :=
  negb (isspace c) && negb (is_char "(" c) && negb (is_char ")" c).

(** The text [s] with Windows line ends: [\r\n] for every [\n]. *)
Fixpoint to_crlf (s : str) : str :=
  match s with
  | [] => []
  | c :: s' =>
      if Ascii.eqb c LF then CR :: LF :: to_crlf s' else c :: to_crlf s'
  end.

(** The world [w] with every file stored with Windows line ends. *)
Definition with_crlf (w : world) : world :=
  {| cwd := cwd w;
     lookup := fun p =>
       match lookup w p with
       | Opened text failure => Opened (to_crlf text) failure
       | CannotOpen e => CannotOpen e
       end |}.

(** [x] comes before [y], or with it, in the order of the keys: the
    key of [y] is not less than the key of [x]. *)
Definition key_le {A K : Type} (key : A -> K) (ltb : K -> K -> bool)
    (x y : A) : Prop :=
  ltb (key y) (key x) = false.

(** The order of [str(path)]. *)
Definition path_le : Path -> Path -> Prop := key_le Path_str str_ltb.

(** What a scan of [/w/docs] for ["*.md"] finds, in directory order. *)
Definition docs_tree : tree :=
  fun pattern =>
    if str_eqb pattern "*.md"
    then Ok [["readme.md"]; ["b.md"]; ["a.md"]]
    else Ok [].

(** * Properties *)

(** ** Characters *)

(** Case analysis over the 256 code points. *)
Ltac each_char c :=
  destruct c as [[] [] [] [] [] [] [] []]; vm_compute; try reflexivity;
  try discriminate; auto.

Lemma lower_char_idem c : lower_char (lower_char c) = lower_char c.
Proof. each_char c. Qed.

Lemma not_word_space_hyphen_kept c :
  negb (not_word_space_hyphen c) = kept_by_slug c.
Proof. unfold not_word_space_hyphen. apply negb_involutive. Qed.

Lemma strip_set_hyphen_underscore c :
  existsb (Ascii.eqb c) "-_" = hyphen_or_underscore c.
Proof. unfold hyphen_or_underscore, is_char. simpl. now rewrite orb_false_r. Qed.

(** ** [re.sub] on the two patterns *)

Lemma re_sub_cons r repl c rest :
  re_sub r repl (c :: rest) =
  match match_at r c rest with
  | Some k => repl ++ re_sub r repl (skipn k rest)
  | None => c :: re_sub r repl rest
  end.
Proof. simp re_sub. destruct (match_at r c rest); reflexivity. Qed.

(** Substituting the empty string for a bare class deletes the
    characters of the class. *)
Lemma re_sub_class_deletes cls s :
  re_sub (Class cls) "" s = filter (fun c => negb (cls c)) s.
Proof.
  induction s as [|c s IH]; [now simp re_sub|].
  rewrite re_sub_cons. simpl. destruct (cls c); simpl; now rewrite IH.
Qed.

Lemma collapse_after_run s :
  collapse_runs true s = collapse_runs false (skipn (span hyphen_or_space s) s).
Proof.
  induction s as [|c s IH]; [reflexivity|].
  simpl. destruct (hyphen_or_space c) eqn:E; simpl.
  - exact IH.
  - now rewrite E.
Qed.

Lemma re_sub_plus_bounded n : forall s, length s <= n ->
  re_sub (ClassPlus hyphen_or_space) "-" s = collapse_runs false s.
Proof.
  induction n as [|n IH]; intros [|c s] Hlen; simpl in Hlen;
    try (now simp re_sub); try lia.
  rewrite re_sub_cons. simpl. destruct (hyphen_or_space c).
  - rewrite IH by (rewrite length_skipn; lia).
    simpl. now rewrite collapse_after_run.
  - rewrite IH by lia. reflexivity.
Qed.

(** Substituting a hyphen for [[-\s]+] collapses each run. *)
Lemma re_sub_plus_collapses s :
  re_sub (ClassPlus hyphen_or_space) "-" s = collapse_runs false s.
Proof. apply (re_sub_plus_bounded (length s)). lia. Qed.

(** ** [str.strip] *)

Lemma lstrip_drop_leading drop s : lstrip drop s = drop_leading drop s.
Proof. induction s as [|c s IH]; simpl; [|destruct (drop c)]; auto. Qed.

Lemma drop_leading_snoc drop s c :
  drop_leading drop (s ++ [c]) =
  match drop_leading drop s with
  | [] => if drop c then [] else [c]
  | kept => kept ++ [c]
  end.
Proof.
  induction s as [|x s IH]; simpl; [reflexivity|].
  destruct (drop x); [exact IH | reflexivity].
Qed.

Lemma rstrip_drop_leading drop s :
  rstrip drop s = rev (drop_leading drop (rev s)).
Proof.
  induction s as [|c s IH]; simpl; [reflexivity|].
  rewrite drop_leading_snoc, IH.
  destruct (drop_leading drop (rev s)) as [|x k]; simpl.
  - destruct (drop c); reflexivity.
  - rewrite rev_app_distr. simpl.
    destruct (rev k ++ [x]) eqn:E; [|reflexivity].
    now apply app_eq_nil in E.
Qed.

Lemma strip_with_trim_ends drop s : strip_with drop s = trim_ends drop s.
Proof.
  unfold strip_with, trim_ends.
  now rewrite rstrip_drop_leading, lstrip_drop_leading.
Qed.

Lemma strip_with_ext d1 d2 s :
  (forall c, d1 c = d2 c) -> strip_with d1 s = strip_with d2 s.
Proof.
  intros H. unfold strip_with.
  assert (L : forall t, lstrip d1 t = lstrip d2 t).
  { induction t as [|c t IH]; simpl; [|rewrite H, IH]; reflexivity. }
  assert (R : forall t, rstrip d1 t = rstrip d2 t).
  { induction t as [|c t IH]; simpl; [|rewrite H, IH]; reflexivity. }
  now rewrite L, R.
Qed.

(** ** [slugify] *)

(** [slugify] as a pipeline of list functions. *)
Lemma slugify_unfold text :
  slugify text =
  strip_with hyphen_or_underscore
    (collapse_runs false (filter kept_by_slug (lower text))).
Proof.
  unfold slugify, strip_chars.
  rewrite re_sub_class_deletes, re_sub_plus_collapses.
  rewrite (filter_ext _ kept_by_slug not_word_space_hyphen_kept).
  apply strip_with_ext, strip_set_hyphen_underscore.
Qed.

(** C4. [slugify] computes what the specification describes: lowercase,
    delete every character that is not a word character, whitespace or a
    hyphen, collapse each run of hyphens and whitespace into one hyphen,
    strip hyphens and underscores from both ends.  As a function it is
    deterministic, and ["Hello World"] and ["hello world"] both give
    ["hello-world"]. *)
Theorem slugify_meets_spec :
  (forall text, slugify text = slugify_spec text)
  /\ slugify "Hello World" = "hello-world"
  /\ slugify "hello world" = "hello-world".
Proof.
  split; [|split; reflexivity].
  intros text. rewrite slugify_unfold. apply strip_with_trim_ends.
Qed.

(** *** Idempotence *)

Lemma tidy_collapse b s : tidy b (collapse_runs b s) = true.
Proof.
  revert b. induction s as [|c s IH]; intros b; simpl; [reflexivity|].
  destruct (hyphen_or_space c) eqn:E.
  - destruct b; simpl; [apply IH|]. now rewrite IH.
  - simpl. rewrite E. apply IH.
Qed.

Lemma tidy_weaken b s : tidy b s = true -> tidy false s = true.
Proof.
  destruct b; [|auto]. destruct s as [|c s]; simpl; [auto|].
  destruct (hyphen_or_space c); [|auto].
  rewrite andb_false_r. discriminate.
Qed.

Lemma tidy_tail b c s : tidy b (c :: s) = true -> tidy false s = true.
Proof.
  simpl. destruct (hyphen_or_space c).
  - intros H. apply andb_true_iff in H as [_ H]. eapply tidy_weaken, H.
  - auto.
Qed.

Lemma tidy_lstrip drop b s : tidy b s = true -> tidy false (lstrip drop s) = true.
Proof.
  revert b. induction s as [|c s IH]; intros b H; simpl; [reflexivity|].
  destruct (drop c).
  - eapply IH, tidy_tail, H.
  - eapply tidy_weaken, H.
Qed.

Lemma tidy_rstrip drop b s : tidy b s = true -> tidy b (rstrip drop s) = true.
Proof.
  revert b. induction s as [|c s IH]; intros b H; [reflexivity|].
  simpl in H. simpl rstrip.
  destruct (hyphen_or_space c) eqn:E.
  - apply andb_true_iff in H as [Hc H]. apply IH in H.
    destruct (rstrip drop s) as [|x k]; [destruct (drop c)|];
      simpl; auto; rewrite E, Hc; auto.
  - apply IH in H.
    destruct (rstrip drop s) as [|x k]; [destruct (drop c)|];
      simpl; auto; rewrite E; auto.
Qed.

Lemma collapse_tidy b s : tidy b s = true -> collapse_runs b s = s.
Proof.
  revert b. induction s as [|c s IH]; intros b H; simpl in *; [reflexivity|].
  destruct (hyphen_or_space c).
  - apply andb_true_iff in H as [Hc H]. apply andb_true_iff in Hc as [Hc Hb].
    apply Ascii.eqb_eq in Hc. subst c. destruct b; [discriminate|].
    simpl. now rewrite IH.
  - now rewrite IH.
Qed.

Lemma settled_collapse b s :
  Forall settled s -> Forall settled (collapse_runs b s).
Proof.
  intros H. revert b. induction H as [|c s Hc _ IH]; intros b; simpl; [constructor|].
  destruct (hyphen_or_space c); [destruct b|]; simpl; auto.
  constructor; [split; reflexivity | apply IH].
Qed.

Lemma Forall_lstrip (P : ascii -> Prop) drop s :
  Forall P s -> Forall P (lstrip drop s).
Proof.
  induction 1 as [|c s Hc H IH]; simpl; [constructor|].
  destruct (drop c); auto.
Qed.

Lemma Forall_rstrip (P : ascii -> Prop) drop s :
  Forall P s -> Forall P (rstrip drop s).
Proof.
  induction 1 as [|c s Hc H IH]; simpl; [constructor|].
  destruct (rstrip drop s); [destruct (drop c)|]; auto.
Qed.

Lemma settled_filter_lower text :
  Forall settled (filter kept_by_slug (lower text)).
Proof.
  apply Forall_forall. intros c Hin.
  apply filter_In in Hin as [Hin Hk]. apply in_map_iff in Hin as [c0 [<- _]].
  split; [apply lower_char_idem | exact Hk].
Qed.

Lemma settled_lower s : Forall settled s -> lower s = s.
Proof.
  unfold lower.
  induction 1 as [|c s [Hc _] _ IH]; simpl; [reflexivity|].
  now rewrite Hc, IH.
Qed.

Lemma settled_filter s : Forall settled s -> filter kept_by_slug s = s.
Proof.
  induction 1 as [|c s [_ Hc] _ IH]; simpl; [reflexivity|].
  now rewrite Hc, IH.
Qed.

Lemma rstrip_idem drop s : rstrip drop (rstrip drop s) = rstrip drop s.
Proof.
  induction s as [|c s IH]; simpl; [reflexivity|].
  destruct (rstrip drop s) as [|x k] eqn:E.
  - destruct (drop c) eqn:D; simpl; [reflexivity | now rewrite D].
  - change (rstrip drop (c :: x :: k))
      with (match rstrip drop (x :: k) with
            | [] => if drop c then [] else [c]
            | kept => c :: kept
            end).
    now rewrite IH.
Qed.

Lemma lstrip_head drop s :
  lstrip drop s = [] \/ exists c t, lstrip drop s = c :: t /\ drop c = false.
Proof.
  induction s as [|c s IH]; simpl; [now left|].
  destruct (drop c) eqn:D; [exact IH|]. right. now exists c, s.
Qed.

Lemma rstrip_head drop c t :
  drop c = false -> exists t', rstrip drop (c :: t) = c :: t'.
Proof.
  intros D. simpl. destruct (rstrip drop t); [rewrite D|]; eauto.
Qed.

Lemma strip_with_idem drop s :
  strip_with drop (strip_with drop s) = strip_with drop s.
Proof.
  unfold strip_with.
  destruct (lstrip_head drop s) as [E | [c [t [E D]]]]; rewrite E.
  - reflexivity.
  - destruct (rstrip_head drop c t D) as [t' E'].
    rewrite E' at 1. simpl lstrip. rewrite D, <- E'. apply rstrip_idem.
Qed.

(** C6. [slugify] is idempotent. *)
Theorem slugify_idempotent (x : str) : slugify (slugify x) = slugify x.
Proof.
  rewrite (slugify_unfold (slugify x)).
  rewrite (slugify_unfold x).
  set (z := collapse_runs false (filter kept_by_slug (lower x))).
  assert (Hs : Forall settled (strip_with hyphen_or_underscore z)).
  { apply Forall_rstrip, Forall_lstrip, settled_collapse, settled_filter_lower. }
  assert (Ht : tidy false (strip_with hyphen_or_underscore z) = true).
  { eapply tidy_rstrip, tidy_lstrip, tidy_collapse. }
  rewrite (settled_lower _ Hs), (settled_filter _ Hs), (collapse_tidy _ _ Ht).
  apply strip_with_idem.
Qed.

(** ** [find_headers] *)

Lemma count_count_occ s : count "#" s = count_occ ascii_dec s "#"%char.
Proof.
  induction s as [|c s IH]; simpl; [reflexivity|].
  destruct (ascii_dec c "#") as [->|N]; simpl.
  - now rewrite IH.
  - apply Ascii.eqb_neq in N. now rewrite N, IH.
Qed.

Lemma startswith_hash row :
  startswith "#" row = true <-> exists rest, row = "#"%char :: rest.
Proof.
  destruct row as [|c rest]; simpl.
  - split; [discriminate | intros [r H]; discriminate].
  - rewrite andb_true_r, Ascii.eqb_eq. split.
    + intros ->. eauto.
    + intros [r H]. now inversion H.
Qed.

Lemma is_header_spec self row :
  is_header self row = true <-> heading_line (header_levels self) row.
Proof.
  unfold is_header, heading_line.
  rewrite andb_true_iff, startswith_hash, Z.leb_le, count_count_occ.
  reflexivity.
Qed.

Lemma scan_rows_extracted self rows :
  extracted (header_levels self) rows (scan_rows self rows).
Proof.
  induction rows as [|row rows IH]; simpl; [constructor|].
  destruct (is_header self row) eqn:E.
  - apply extracted_keep; [now apply is_header_spec | exact IH].
  - apply extracted_skip; [|exact IH].
    intros H. apply is_header_spec in H. congruence.
Qed.

Lemma scan_rows_filter self rows :
  scan_rows self rows = filter (is_header self) rows.
Proof.
  induction rows as [|row rows IH]; simpl; [reflexivity|].
  now rewrite IH.
Qed.

Lemma in_scan_rows self rows row :
  In row (scan_rows self rows) <->
  In row rows /\ heading_line (header_levels self) row.
Proof. now rewrite scan_rows_filter, filter_In, is_header_spec. Qed.

(** C1. A row of a source is yielded by [find_headers] if and only if it
    starts with ['#'] and holds at most [header_levels] characters ['#']
    in all; the yielded rows are the rows of the file with the others
    left out, so a row with more markers is absent, not shortened. *)
Theorem find_headers_recognizes (w : world) (self : TableOfContents) (f : Path) :
  match lookup w f with
  | Opened text _ =>
      extracted (header_levels self) (rows_of text)
                (yielded (find_headers w self f))
      /\ (forall row, In row (yielded (find_headers w self f)) <->
                      In row (rows_of text)
                      /\ heading_line (header_levels self) row)
  | CannotOpen _ => yielded (find_headers w self f) = []
  end.
Proof.
  unfold find_headers. destruct (lookup w f) as [e | text failure]; simpl.
  - reflexivity.
  - split; [apply scan_rows_extracted | intros row; apply in_scan_rows].
Qed.

(** ** [generate_item] *)

Lemma four_spaces : str_mul " " SPACES_INDENTATION = repeat " "%char 4.
Proof. reflexivity. Qed.

Lemma concat_repeat_spaces k n :
  concat (repeat (repeat " "%char k) n) = repeat " "%char (k * n).
Proof.
  induction n as [|n IH]; simpl.
  - now rewrite Nat.mul_0_r.
  - rewrite IH, <- repeat_app. f_equal. lia.
Qed.

(** The indentation is [4 * indentation_level] spaces. *)
Lemma indentation_spaces header :
  indentation header =
  repeat " "%char (Z.to_nat (SPACES_INDENTATION * indentation_level header)).
Proof.
  unfold indentation. rewrite four_spaces. unfold str_mul.
  rewrite concat_repeat_spaces. f_equal. unfold SPACES_INDENTATION.
  destruct (indentation_level header); simpl; lia.
Qed.

Lemma leading_spaces_repeat n rest :
  leading_spaces (repeat " "%char n ++ "- [" ++ rest) = n.
Proof.
  unfold leading_spaces. induction n as [|n IH]; [reflexivity|].
  change (S (span (is_char " ") (repeat " "%char n ++ "- [" ++ rest)) = S n).
  now rewrite IH.
Qed.

(** Every item starts with the indentation and the bullet. *)
Lemma generate_item_shape w header f line :
  generate_item w header f = Ok line ->
  exists rest, line = indentation header ++ "- [" ++ rest.
Proof.
  unfold generate_item. destruct f as [f|].
  - destruct (get_relative_link w f) as [rel|e]; simpl; [|discriminate].
    intros [= <-]. eexists. reflexivity.
  - intros [= <-]. eexists. reflexivity.
Qed.

(** C2, as the code has it.  For a recognized heading row the depth
    (indentation level) is the count of ['#'] in the row minus 1, it
    lies between 0 and [header_levels - 1], and the item starts with
    exactly [4 * depth] spaces, followed by the bullet. *)
Theorem item_indented_by_level (w : world) (self : TableOfContents)
    (header : str) (f : option Path) (line : str) :
  is_header self header = true ->
  generate_item w header f = Ok line ->
  indentation_level header = (Z.of_nat (count "#" header) - 1)%Z
  /\ (0 <= indentation_level header < header_levels self)%Z
  /\ Z.of_nat (leading_spaces line)
     = (SPACES_INDENTATION * indentation_level header)%Z
  /\ exists rest,
       line = repeat " "%char (Z.to_nat (4 * indentation_level header))
                ++ "- [" ++ rest.
Proof.
  intros Hh Hitem.
  assert (Hlevel : (0 <= indentation_level header < header_levels self)%Z).
  { unfold is_header in Hh. apply andb_true_iff in Hh as [Hs Hc].
    apply Z.leb_le in Hc. apply startswith_hash in Hs as [rest ->].
    unfold indentation_level. change (count "#" ("#"%char :: rest))
      with (S (count "#" rest)) in *. lia. }
  destruct (generate_item_shape _ _ _ _ Hitem) as [rest ->].
  rewrite indentation_spaces.
  repeat split; try apply Hlevel.
  - rewrite leading_spaces_repeat. unfold SPACES_INDENTATION. lia.
  - now exists rest.
Qed.

Lemma item_indented_by_level_witness :
  is_header (default_table []) ("## B" ++ [LF]) = true
  /\ generate_item empty_world ("## B" ++ [LF]) None
     = Ok ("    - [B](#b)" ++ [LF])
  /\ Z.of_nat (leading_spaces ("    - [B](#b)" ++ [LF])) = 4%Z.
Proof.
  split; [reflexivity|]. split; [reflexivity|].
  apply (item_indented_by_level empty_world (default_table [])
           ("## B" ++ [LF]) None ("    - [B](#b)" ++ [LF]));
    reflexivity.
Defined.

(** C2, as stated, fails: with depth = count of ['#'] minus 1 the row
    ["## B"] has depth 1, and its item starts with 4 spaces, not with
    [4 * (depth - 1) = 0]. *)
Lemma item_not_indented_by_depth_minus_one :
  let header := "## B" ++ [LF] in
  let depth := (Z.of_nat (count "#" header) - 1)%Z in
  is_header (default_table []) header = true
  /\ exists line,
       generate_item empty_world header None = Ok line
       /\ Z.of_nat (leading_spaces line) <> (SPACES_INDENTATION * (depth - 1))%Z.
Proof.
  split; [reflexivity|].
  exists ("    - [B](#b)" ++ [LF]). split; [reflexivity | discriminate].
Qed.

Lemma lstrip_all drop s : Forall (fun c => drop c = true) s -> lstrip drop s = [].
Proof.
  induction 1 as [|c s Hc _ IH]; simpl; [reflexivity|]. now rewrite Hc.
Qed.

Lemma remove_hash_spaces header :
  Forall (fun c => c = "#"%char \/ isspace c = true) header ->
  Forall (fun c => isspace c = true) (remove_char "#" header).
Proof.
  induction 1 as [|c s Hc _ IH]; simpl; [constructor|].
  destruct (Ascii.eqb c "#") eqn:E; [exact IH|].
  constructor; [|exact IH].
  destruct Hc as [-> | Hc]; [discriminate | exact Hc].
Qed.

(** C10. A heading row made only of ['#'] and whitespace has an empty
    display text and an empty anchor, and without a file argument its
    item is the indentation followed by ["- [](#)\n"]. *)
Theorem marker_only_heading_item (w : world) (header : str) :
  Forall (fun c => c = "#"%char \/ isspace c = true) header ->
  header_text header = ""
  /\ slugify (header_text header) = ""
  /\ generate_item w header None = Ok (indentation header ++ "- [](#)" ++ [LF]).
Proof.
  intros H.
  assert (E : header_text header = "").
  { unfold header_text, strip, strip_with.
    now rewrite (lstrip_all _ _ (remove_hash_spaces _ H)). }
  unfold generate_item. rewrite E. repeat split.
Qed.

Lemma marker_only_heading_item_witness :
  is_header (default_table []) ("#" ++ [LF]) = true
  /\ generate_item empty_world ("#" ++ [LF]) None = Ok ("- [](#)" ++ [LF]).
Proof.
  split; [reflexivity|].
  apply (marker_only_heading_item empty_world ("#" ++ [LF])).
  constructor; [left; reflexivity|].
  constructor; [right; reflexivity | constructor].
Defined.

(** ** Loops in the exception monad *)

Lemma collect_ok_iff {A B} (g : A -> result B) l ys :
  collect g l = Ok ys <-> Forall2 (fun x y => g x = Ok y) l ys.
Proof.
  revert ys. induction l as [|x l IH]; intros ys; simpl.
  - split.
    + intros [= <-]. constructor.
    + intros H. now inversion H.
  - split.
    + destruct (g x) as [y|e] eqn:E; simpl; [|discriminate].
      destruct (collect g l) as [ys'|e]; simpl; [|discriminate].
      intros [= <-]. constructor; [exact E | now apply IH].
    + intros H. inversion H as [|x' y l' ys' Hx Hl]; subst.
      apply IH in Hl. now rewrite Hx, Hl.
Qed.

Lemma collect_raise {A B} (g : A -> result B) l e :
  collect g l = Raise e -> exists x, In x l /\ g x = Raise e.
Proof.
  induction l as [|x l IH]; simpl; [discriminate|].
  destruct (g x) as [y|e'] eqn:E; simpl.
  - destruct (collect g l) as [ys|e'']; simpl; [discriminate|].
    intros [= <-]. destruct IH as [x' [Hin Hx]]; eauto.
  - intros [= <-]. eauto.
Qed.

(** A loop that appends one string per element is [collect] followed by
    one concatenation. *)
Lemma for_each_appends {A} (g : A -> result str) l content :
  for_each (fun content x => item <- g x ;; Ok (content ++ item)) l content
  = (lines <- collect g l ;; Ok (content ++ concat lines)).
Proof.
  revert content. induction l as [|x l IH]; intros content; simpl.
  - now rewrite app_nil_r.
  - destruct (g x) as [y|e]; simpl; [|reflexivity].
    rewrite IH. destruct (collect g l) as [ys|e]; simpl; [|reflexivity].
    now rewrite app_assoc.
Qed.

Lemma for_each_blocks {A} (g : A -> result (list str)) l content :
  for_each (fun content x => lines <- g x ;; Ok (content ++ concat lines))
           l content
  = (blocks <- collect g l ;; Ok (content ++ concat (concat blocks))).
Proof.
  revert content. induction l as [|x l IH]; intros content; simpl.
  - now rewrite app_nil_r.
  - destruct (g x) as [y|e]; simpl; [|reflexivity].
    rewrite IH. destruct (collect g l) as [ys|e]; simpl; [|reflexivity].
    now rewrite concat_app, app_assoc.
Qed.

Lemma for_each_ext {A S} (b1 b2 : S -> A -> result S) l s :
  (forall s x, b1 s x = b2 s x) -> for_each b1 l s = for_each b2 l s.
Proof.
  intros H. revert s. induction l as [|x l IH]; intros s; simpl; [reflexivity|].
  rewrite H. destruct (b2 s x); simpl; auto.
Qed.

(** ** [generate_list] *)

(** The inner loop of [generate_list] for one source. *)
Lemma inner_loop_source_lines w self f content :
  for_generator
    (fun content header =>
       if has_multiple_sources self then
         item <- generate_item w header (Some f) ;; Ok (content ++ item)
       else
         item <- generate_item w header None ;; Ok (content ++ item))
    (find_headers w self f) content
  = (lines <- source_lines w self f ;; Ok (content ++ concat lines)).
Proof.
  unfold for_generator, source_lines, file_argument.
  rewrite (for_each_ext _
    (fun content header =>
       item <- generate_item w header
                 (if has_multiple_sources self then Some f else None) ;;
       Ok (content ++ item))).
  - rewrite for_each_appends.
    destruct (collect _ (yielded (find_headers w self f))); simpl; [|reflexivity].
    destruct (ending (find_headers w self f)); reflexivity.
  - intros s x. destruct (has_multiple_sources self); reflexivity.
Qed.

(** [generate_list] collects the lines of every source and appends them
    to the title line. *)
Lemma generate_list_collect w self :
  generate_list w self
  = (blocks <- collect (source_lines w self) (source self) ;;
     Ok (title_line self ++ concat (concat blocks))).
Proof.
  unfold generate_list. fold (title_line self).
  rewrite <- for_each_blocks. apply for_each_ext.
  intros s f. apply inner_loop_source_lines.
Qed.

Lemma source_lines_ok_iff w self f block :
  source_lines w self f = Ok block <->
  ending (find_headers w self f) = None
  /\ Forall2 (item_of w self)
             (map (pair f) (yielded (find_headers w self f))) block.
Proof.
  unfold source_lines.
  destruct (collect _ (yielded (find_headers w self f))) as [lines|e] eqn:E; simpl.
  - apply collect_ok_iff in E.
    assert (F : Forall2 (item_of w self)
                  (map (pair f) (yielded (find_headers w self f))) lines).
    { clear -E. induction E; simpl; constructor; auto. }
    destruct (ending (find_headers w self f)).
    + split; [discriminate | intros [H _]; discriminate].
    + split.
      * intros [= <-]. auto.
      * intros [_ H]. f_equal.
        clear -F H. revert block H.
        induction F as [|x y l l' Hxy _ IH]; intros block H;
          inversion H as [|x' y' l0 l0' Hxy' Hl]; subst; [reflexivity|].
        unfold item_of in *. f_equal; [congruence | now apply IH].
  - split; [discriminate|]. intros [_ H]. exfalso.
    assert (C : collect (fun header =>
                  generate_item w header (file_argument self f))
                  (yielded (find_headers w self f)) = Ok block).
    { apply collect_ok_iff. clear -H.
      revert block H.
      induction (yielded (find_headers w self f)) as [|h hs IH];
        intros block H; inversion H; subst; constructor; auto. }
    congruence.
Qed.

Lemma blocks_ok_iff w self srcs lines :
  (exists blocks, collect (source_lines w self) srcs = Ok blocks
                  /\ concat blocks = lines) <->
  (forall f, In f srcs -> ending (find_headers w self f) = None)
  /\ Forall2 (item_of w self)
       (flat_map (fun f => map (pair f) (yielded (find_headers w self f))) srcs)
       lines.
Proof.
  revert lines. induction srcs as [|f srcs IH]; intros lines; simpl.
  - split.
    + intros [blocks [[= <-] <-]]. split; [tauto | constructor].
    + intros [_ H]. inversion H. exists []. auto.
  - split.
    + intros [blocks [H <-]].
      destruct (source_lines w self f) as [block|e] eqn:E; simpl in H; [|discriminate].
      destruct (collect (source_lines w self) srcs) as [rest|e] eqn:C;
        simpl in H; [|discriminate].
      injection H as <-. apply source_lines_ok_iff in E as [E1 E2].
      destruct (proj1 (IH (concat rest))) as [H1 H2]; [eauto|].
      split.
      * intros g [<- | Hg]; auto.
      * simpl. apply Forall2_app; assumption.
    + intros [Hend H].
      apply Forall2_app_inv_l in H as [block [rest [H1 [H2 ->]]]].
      assert (E : source_lines w self f = Ok block).
      { apply source_lines_ok_iff. split; auto. }
      destruct (proj2 (IH rest)) as [blocks [C <-]]; [split; auto|].
      exists (block :: blocks). rewrite E, C. auto.
Qed.

(** [generate_list] returns a string exactly when every source is read
    to its end and every heading gets its item; the string is the title
    line followed by the items of the headings in order. *)
Lemma generate_list_ok_iff w self out :
  generate_list w self = Ok out <->
  (forall f, In f (source self) -> ending (find_headers w self f) = None)
  /\ exists lines,
       Forall2 (item_of w self) (headings_in_order w self) lines
       /\ out = title_line self ++ concat lines.
Proof.
  rewrite generate_list_collect. unfold headings_in_order. split.
  - destruct (collect (source_lines w self) (source self)) as [blocks|e] eqn:C;
      simpl; [|discriminate].
    intros [= <-].
    destruct (proj1 (blocks_ok_iff w self (source self) (concat blocks)))
      as [H1 H2]; eauto.
  - intros [H1 [lines [H2 ->]]].
    destruct (proj2 (blocks_ok_iff w self (source self) lines))
      as [blocks [C <-]]; [auto|].
    now rewrite C.
Qed.

Lemma Forall2_exists {A B} (R : A -> B -> Prop) l :
  (forall x, In x l -> exists y, R x y) -> exists ys, Forall2 R l ys.
Proof.
  induction l as [|x l IH]; intros H.
  - exists []. constructor.
  - destruct (H x) as [y Hy]; [now left|].
    destruct IH as [ys Hys]; [intros z Hz; apply H; now right|].
    exists (y :: ys). now constructor.
Qed.

Lemma Forall2_through {A B C} (r : C -> B) (R : A -> B -> Prop)
    (Q : A -> C -> Prop) l ys :
  (forall x y, R x y -> exists z, y = r z /\ Q x z) ->
  Forall2 R l ys -> exists zs, ys = map r zs /\ Forall2 Q l zs.
Proof.
  intros H. induction 1 as [|x y l ys Hxy _ [zs [-> IH]]].
  - exists []. split; [reflexivity | constructor].
  - destruct (H x y Hxy) as [z [-> Hz]].
    exists (z :: zs). split; [reflexivity | now constructor].
Qed.

Lemma in_headings_source w self entry :
  In entry (headings_in_order w self) -> In (fst entry) (source self).
Proof.
  unfold headings_in_order. intros H.
  apply in_flat_map in H as [f [Hf H]].
  apply in_map_iff in H as [h [<- _]]. exact Hf.
Qed.

Lemma readable_ending w self f :
  readable (lookup w f) -> ending (find_headers w self f) = None.
Proof. intros [text H]. unfold find_headers. now rewrite H. Qed.

Lemma fails_with_ending w self f e :
  fails_with (lookup w f) e <-> ending (find_headers w self f) = Some e.
Proof.
  unfold fails_with, find_headers.
  destruct (lookup w f) as [e0 | text [e0|]]; simpl; split.
  - intros [[= ->] | [t H]]; [reflexivity | discriminate].
  - intros [= ->]. now left.
  - intros [H | [t [= _ ->]]]; [discriminate | reflexivity].
  - intros [= ->]. right. now exists text.
  - intros [H | [t H]]; discriminate.
  - discriminate.
Qed.

(** *** Every item is one line *)

Lemma lf_only_last_cons c s :
  lf_only_last (c :: s) = true -> lf_only_last s = true.
Proof.
  destruct s as [|d s]; [reflexivity|].
  change (negb (Ascii.eqb c LF) && lf_only_last (d :: s) = true
          -> lf_only_last (d :: s) = true).
  intros H. now apply andb_true_iff in H.
Qed.

Lemma lf_only_last_head c d s :
  lf_only_last (c :: d :: s) = true -> c <> LF.
Proof.
  change (negb (Ascii.eqb c LF) && lf_only_last (d :: s) = true -> c <> LF).
  intros H. apply andb_true_iff in H as [H _].
  apply negb_true_iff in H. now apply Ascii.eqb_neq.
Qed.

Lemma lf_only_last_skip c s :
  c <> LF -> lf_only_last s = true -> lf_only_last (c :: s) = true.
Proof.
  intros Hc Hs. destruct s as [|d s]; [reflexivity|].
  change (negb (Ascii.eqb c LF) && lf_only_last (d :: s) = true).
  apply Ascii.eqb_neq in Hc. now rewrite Hc, Hs.
Qed.

Lemma lf_free_only_last body :
  ~ In LF body ->
  lf_only_last body = true /\ lf_only_last (body ++ [LF]) = true.
Proof.
  induction body as [|c body IH]; intros H; [now split|].
  assert (Hc : c <> LF) by (intros ->; apply H; now left).
  destruct IH as [I1 I2]; [intros Hin; apply H; now right|].
  split; now apply lf_only_last_skip.
Qed.

Lemma rows_from_lf_only_last cur s :
  ~ In LF cur -> Forall (fun row => lf_only_last row = true) (rows_from cur s).
Proof.
  revert cur. induction s as [|c s IH]; intros cur Hcur; simpl.
  - assert (H : ~ In LF (rev cur)) by now rewrite <- in_rev.
    destruct cur; [constructor|].
    constructor; [apply (lf_free_only_last _ H) | constructor].
  - destruct (Ascii.eqb c LF) eqn:E.
    + apply Ascii.eqb_eq in E. subst c. constructor; [|apply IH; tauto].
      simpl rev. apply lf_free_only_last. now rewrite <- in_rev.
    + apply Ascii.eqb_neq in E. apply IH.
      intros [H | H]; [congruence | tauto].
Qed.

(** The rows of a file hold no line feed before their end. *)
Lemma rows_of_lf_only_last text :
  Forall (fun row => lf_only_last row = true) (rows_of text).
Proof. apply rows_from_lf_only_last. tauto. Qed.

Lemma remove_char_lf_only_last s :
  lf_only_last s = true -> lf_only_last (remove_char "#" s) = true.
Proof.
  induction s as [|c s IH]; intros H; [reflexivity|].
  simpl remove_char. pose proof (IH (lf_only_last_cons _ _ H)) as I.
  destruct (Ascii.eqb c "#"); [exact I|].
  destruct s as [|d s]; [reflexivity|].
  apply lf_only_last_skip; [eapply lf_only_last_head, H | exact I].
Qed.

Lemma lstrip_lf_only_last drop s :
  lf_only_last s = true -> lf_only_last (lstrip drop s) = true.
Proof.
  induction s as [|c s IH]; intros H; [reflexivity|].
  simpl lstrip. destruct (drop c); [|exact H].
  eapply IH, lf_only_last_cons, H.
Qed.

Lemma rstrip_space_lf_free s :
  lf_only_last s = true -> ~ In LF (rstrip isspace s).
Proof.
  induction s as [|c s IH]; intros H; [simpl; tauto|].
  pose proof (IH (lf_only_last_cons _ _ H)) as I. simpl rstrip.
  destruct (rstrip isspace s) as [|x k] eqn:E.
  - destruct (isspace c) eqn:Sp; [simpl; tauto|].
    intros [-> | []]. discriminate.
  - destruct s as [|d s]; [discriminate|].
    intros [-> | Hin]; [now apply (lf_only_last_head _ _ _ H) | now apply I].
Qed.

Lemma header_text_lf_free header :
  lf_only_last header = true -> ~ In LF (header_text header).
Proof.
  intros H. unfold header_text, strip, strip_with.
  now apply rstrip_space_lf_free, lstrip_lf_only_last, remove_char_lf_only_last.
Qed.

Lemma tidy_lf_free b s : tidy b s = true -> ~ In LF s.
Proof.
  revert b. induction s as [|c s IH]; intros b H; [simpl; tauto|].
  simpl in H. intros [-> | Hin].
  - change (hyphen_or_space LF) with true in H. discriminate.
  - destruct (hyphen_or_space c).
    + apply andb_true_iff in H as [_ H]. now apply (IH true).
    + now apply (IH false).
Qed.

(** A slug holds no whitespace, in particular no line feed. *)
Lemma slugify_lf_free text : ~ In LF (slugify text).
Proof.
  rewrite slugify_unfold. apply (tidy_lf_free false).
  eapply tidy_rstrip, tidy_lstrip, tidy_collapse.
Qed.

Lemma hex_digit_quoted n : quoted_char (hex_digit n).
Proof.
  left. unfold hex_digit.
  generalize (N.to_nat n). intros k.
  do 16 (destruct k as [|k]; [reflexivity|]).
  destruct k; reflexivity.
Qed.

Lemma quote_safe_small b : quote_safe b = true -> (b < 256)%N.
Proof.
  unfold quote_safe. intros H. apply andb_true_iff in H as [H _].
  apply N.ltb_lt in H. lia.
Qed.

(** [quote] produces unreserved characters, ["/"] and percent escapes
    only. *)
Lemma quote_chars s : Forall quoted_char (quote s).
Proof.
  unfold quote. apply Forall_flat_map, Forall_forall. intros b _.
  unfold quote_byte. destruct (quote_safe b) eqn:E.
  - constructor; [|constructor]. left. unfold ord.
    now rewrite (N_ascii_embedding b (quote_safe_small b E)).
  - constructor; [now right|].
    constructor; [apply hex_digit_quoted|].
    constructor; [apply hex_digit_quoted | constructor].
Qed.

Lemma quote_lf_free s : ~ In LF (quote s).
Proof.
  intros H. pose proof (quote_chars s) as Q.
  rewrite Forall_forall in Q. destruct (Q LF H); discriminate.
Qed.

Lemma indentation_lf_free header : ~ In LF (indentation header).
Proof.
  rewrite indentation_spaces. intros H. apply repeat_spec in H. discriminate.
Qed.

(** The item of a row of a file is one line. *)
Lemma generate_item_one_line w header f line :
  lf_only_last header = true ->
  generate_item w header f = Ok line -> one_line line.
Proof.
  intros Hrow. unfold generate_item, get_relative_link.
  pose proof (header_text_lf_free header Hrow) as Ht.
  pose proof (slugify_lf_free (header_text header)) as Ha.
  pose proof (indentation_lf_free header) as Hi.
  assert (Hlit : forall c l, c <> LF -> ~ In LF l -> ~ In LF (c :: l)).
  { intros c l Hc Hl [E | Hin]; [congruence | tauto]. }
  destruct f as [p|].
  - destruct (relative_to p (cwd w)) as [rel|e]; simpl; [|discriminate].
    intros [= <-]. pose proof (quote_lf_free (Path_str rel)) as Hq.
    exists (indentation header ++ "- [" ++ header_text header ++ "](./"
              ++ quote (Path_str rel) ++ "#" ++ slugify (header_text header)
              ++ ")").
    split; [now rewrite <- !app_assoc|].
    rewrite !in_app_iff. simpl. intuition discriminate.
  - intros [= <-].
    exists (indentation header ++ "- [" ++ header_text header ++ "](#"
              ++ slugify (header_text header) ++ ")").
    split; [now rewrite <- !app_assoc|].
    rewrite !in_app_iff. simpl. intuition discriminate.
Qed.

Lemma headings_lf_only_last w self entry :
  In entry (headings_in_order w self) -> lf_only_last (snd entry) = true.
Proof.
  unfold headings_in_order. intros H.
  apply in_flat_map in H as [f [_ H]].
  apply in_map_iff in H as [h [<- H]]. simpl.
  unfold find_headers in H.
  destruct (lookup w f) as [e | text failure]; simpl in H; [contradiction|].
  apply in_scan_rows in H as [H _].
  pose proof (rows_of_lf_only_last text) as R.
  rewrite Forall_forall in R. now apply R.
Qed.

Lemma Forall2_Forall_r {A B} (R : A -> B -> Prop) (P : B -> Prop) l ys :
  (forall x y, In x l -> R x y -> P y) -> Forall2 R l ys -> Forall P ys.
Proof.
  intros H F. induction F as [|x y l ys Hxy _ IH]; constructor.
  - apply (H x); [now left | exact Hxy].
  - apply IH. intros x' y' Hin. apply H. now right.
Qed.

Lemma multiple_sources_length self :
  has_multiple_sources self = true <-> 2 <= length (source self).
Proof. unfold has_multiple_sources. rewrite Nat.ltb_lt. lia. Qed.

(** What [generate_item] returns, part by part. *)
Lemma item_of_item_for w self entry line :
  item_of w self entry line ->
  exists it, line = render_item it /\ item_for w self entry it.
Proof.
  destruct entry as [f header].
  unfold item_of, file_argument, generate_item, get_relative_link. simpl.
  destruct (has_multiple_sources self) eqn:M.
  - apply multiple_sources_length in M.
    destruct (relative_to f (cwd w)) as [rel|e] eqn:R; simpl; [|discriminate].
    intros [= <-].
    exists {| item_indentation := indentation header;
              item_text := header_text header;
              item_target := file_target (quote (Path_str rel))
                               (slugify (header_text header)) |}.
    split.
    + unfold render_item, file_target. simpl. now rewrite <- !app_assoc.
    + repeat split; simpl; try lia.
      * exists rel. auto.
      * discriminate.
  - assert (L : length (source self) <= 1).
    { unfold has_multiple_sources in M. apply Nat.ltb_ge in M. exact M. }
    intros [= <-].
    exists {| item_indentation := indentation header;
              item_text := header_text header;
              item_target := bare_target (slugify (header_text header)) |}.
    split; [reflexivity|]. repeat split; simpl; lia.
Qed.

(** C3. Whenever [generate_list] returns, its result is the title line
    followed by the items of the headings in order; in a table of one
    source every link target is ["#" ++ anchor]; in a table of two or
    more sources every link target is ["./" ++ rel ++ "#" ++ anchor],
    with [rel] the quoted path of the heading's source relative to the
    working directory, and none is a bare ["#" ++ anchor]. *)
Theorem link_targets_by_source_count (w : world) (self : TableOfContents)
    (out : str) :
  generate_list w self = Ok out ->
  exists items,
    out = title_line self ++ concat (map render_item items)
    /\ Forall2 (item_for w self) (headings_in_order w self) items.
Proof.
  intros H. apply generate_list_ok_iff in H as [_ [lines [H ->]]].
  destruct (Forall2_through render_item _ (item_for w self) _ _
              (item_of_item_for w self) H) as [items [-> Hitems]].
  now exists items.
Qed.

Lemma link_targets_by_source_count_witness :
  exists items,
    "## Table of contents" ++ [LF] ++ "- [X](./a.md#x)" ++ [LF]
      ++ "- [Y](./b.md#y)" ++ [LF]
    = title_line (default_table [a_md; b_md]) ++ concat (map render_item items)
    /\ Forall2 (item_for docs_world (default_table [a_md; b_md]))
               (headings_in_order docs_world (default_table [a_md; b_md]))
               items.
Proof.
  apply (link_targets_by_source_count docs_world (default_table [a_md; b_md])).
  reflexivity.
Defined.

(** C5. A table with the default title and depth, built from one
    readable source whose recognized heading rows are ["# A"] and
    ["## B"] in this order, renders as
    ["## Table of contents\n- [A](#a)\n    - [B](#b)\n"]. *)
Theorem single_source_rendering (w : world) (f : Path) :
  readable (lookup w f) ->
  Forall2 row_of_line ["# A"; "## B"]
          (yielded (find_headers w (default_table [f]) f)) ->
  generate_list w (default_table [f])
  = Ok ("## Table of contents" ++ [LF] ++ "- [A](#a)" ++ [LF]
          ++ "    - [B](#b)" ++ [LF]).
Proof.
  intros Hread Hrows.
  apply generate_list_ok_iff. split.
  - intros g [<- | []]. now apply readable_ending.
  - exists ["- [A](#a)" ++ [LF]; "    - [B](#b)" ++ [LF]].
    split; [|reflexivity].
    unfold headings_in_order. simpl source. simpl flat_map. rewrite app_nil_r.
    inversion Hrows as [|l1 h1 ls1 hs1 R1 Hrest E1 E2]; subst.
    inversion Hrest as [|l2 h2 ls2 hs2 R2 Hnil E3 E4]; subst.
    inversion Hnil; subst. simpl map.
    destruct R1 as [-> | ->]; destruct R2 as [-> | ->];
      repeat constructor.
Qed.

Lemma single_source_rendering_witness :
  generate_list docs_world (default_table [readme_md])
  = Ok ("## Table of contents" ++ [LF] ++ "- [A](#a)" ++ [LF]
          ++ "    - [B](#b)" ++ [LF]).
Proof.
  apply (single_source_rendering docs_world readme_md).
  - eexists. reflexivity.
  - repeat constructor; right; reflexivity.
Defined.

(** ** Exceptions *)

Lemma relative_to_raises p q e : relative_to p q = Raise e -> e = ValueError.
Proof.
  unfold relative_to. destruct (str_eqb (root p) (root q)).
  - destruct (strip_prefix (parts q) (parts p)); [discriminate|]. now intros [= <-].
  - now intros [= <-].
Qed.

Lemma generate_item_raises w header f e :
  generate_item w header f = Raise e ->
  e = ValueError
  /\ exists p, f = Some p /\ relative_to p (cwd w) = Raise ValueError.
Proof.
  unfold generate_item, get_relative_link. destruct f as [p|]; [|discriminate].
  destruct (relative_to p (cwd w)) as [rel|e'] eqn:R; simpl; [discriminate|].
  intros [= <-]. pose proof (relative_to_raises _ _ _ R) as ->. eauto.
Qed.

(** The exception [generate_list] raises comes from a source: from
    reading it, or from the relative link of one of its headings. *)
Lemma generate_list_raises w self e :
  generate_list w self = Raise e ->
  exists f, In f (source self)
    /\ (fails_with (lookup w f) e
        \/ (has_multiple_sources self = true /\ e = ValueError
            /\ relative_to f (cwd w) = Raise ValueError)).
Proof.
  rewrite generate_list_collect.
  destruct (collect (source_lines w self) (source self)) as [blocks|e'] eqn:C;
    simpl; [discriminate|].
  intros [= ->]. apply collect_raise in C as [f [Hf H]].
  exists f. split; [exact Hf|].
  unfold source_lines in H.
  destruct (collect _ (yielded (find_headers w self f))) as [lines|e'] eqn:I; simpl in H.
  - left. apply (fails_with_ending w self).
    destruct (ending (find_headers w self f)); congruence.
  - injection H as ->. right.
    apply collect_raise in I as [h [_ I]].
    apply generate_item_raises in I as [-> [p [A R]]].
    unfold file_argument in A.
    destruct (has_multiple_sources self); [|discriminate].
    injection A as <-. auto.
Qed.


(** ** A depth bound below 1 *)

Lemma is_header_needs_level self row :
  (header_levels self < 1)%Z -> is_header self row = false.
Proof.
  intros H. unfold is_header.
  destruct (startswith "#" row) eqn:S; [|reflexivity].
  apply startswith_hash in S as [rest ->].
  change (count "#" ("#"%char :: rest)) with (S (count "#" rest)).
  apply Z.leb_gt. lia.
Qed.

Lemma scan_rows_none self rows :
  (forall row, is_header self row = false) -> scan_rows self rows = [].
Proof.
  intros H. induction rows as [|row rows IH]; simpl; [reflexivity|].
  now rewrite H.
Qed.

(** C9. With [header_levels] below 1 no row is a heading, since a row
    that starts with ['#'] holds at least one; the table of readable
    sources then renders as its title line alone. *)
Theorem no_headings_below_level_one (w : world) (self : TableOfContents) :
  (header_levels self < 1)%Z ->
  (forall f, In f (source self) -> readable (lookup w f)) ->
  (forall row, is_header self row = false)
  /\ headings_in_order w self = []
  /\ generate_list w self = Ok ("## " ++ title self ++ [LF]).
Proof.
  intros Hlevel Hread.
  assert (Hnone : forall row, is_header self row = false).
  { intros row. now apply is_header_needs_level. }
  assert (Hempty : headings_in_order w self = []).
  { unfold headings_in_order.
    induction (source self) as [|f l IH]; simpl; [reflexivity|].
    rewrite IH by (intros g Hg; apply Hread; now right).
    destruct (Hread f) as [text Ht]; [now left|].
    unfold find_headers. rewrite Ht. simpl.
    now rewrite (scan_rows_none _ _ Hnone). }
  repeat split; auto.
  apply generate_list_ok_iff. split.
  - intros f Hf. apply readable_ending, Hread, Hf.
  - exists []. rewrite Hempty. split; [constructor|].
    unfold title_line. simpl concat. now rewrite !app_nil_r.
Qed.

Lemma no_headings_below_level_one_witness :
  generate_list docs_world
    {| source := [readme_md; a_md]; title := "Contents"; header_levels := 0 |}
  = Ok ("## Contents" ++ [LF]).
Proof.
  apply (no_headings_below_level_one docs_world
           {| source := [readme_md; a_md]; title := "Contents";
              header_levels := 0 |}).
  - reflexivity.
  - intros f [<- | [<- | []]]; eexists; reflexivity.
Defined.

(** * Further properties *)

(** ** What [strip] leaves at the ends *)

Lemma rstrip_last drop s front c :
  rstrip drop s = front ++ [c] -> drop c = false.
Proof.
  revert front. induction s as [|x s IH]; intros front; simpl.
  - intros H. now destruct front.
  - destruct (rstrip drop s) as [|k ks] eqn:E.
    + destruct (drop x) eqn:D; intros H.
      * now destruct front.
      * destruct front as [|y front]; [now injection H as <- |].
        injection H as _ H. now destruct front.
    + intros H. destruct front as [|y front]; [discriminate|].
      injection H as _ H. apply (IH front H).
Qed.

Lemma strip_with_first drop s c rest :
  strip_with drop s = c :: rest -> drop c = false.
Proof.
  unfold strip_with.
  destruct (lstrip_head drop s) as [E | [x [t [E D]]]]; rewrite E.
  - discriminate.
  - destruct (rstrip_head drop x t D) as [t' ->]. now intros [= <- _].
Qed.

Lemma strip_with_last drop s front c :
  strip_with drop s = front ++ [c] -> drop c = false.
Proof. apply rstrip_last. Qed.

Lemma in_lstrip drop s c :
  In c s -> drop c = false -> In c (lstrip drop s).
Proof.
  intros Hin D. induction s as [|x s IH]; [contradiction|]. simpl.
  destruct (drop x) eqn:Dx; [|exact Hin].
  destruct Hin as [-> | Hin]; [congruence | now apply IH].
Qed.

Lemma in_rstrip drop s c :
  In c s -> drop c = false -> In c (rstrip drop s).
Proof.
  intros Hin D. induction s as [|x s IH]; [contradiction|]. simpl.
  destruct Hin as [-> | Hin].
  - destruct (rstrip drop s); [rewrite D|]; now left.
  - specialize (IH Hin). destruct (rstrip drop s); [contradiction | now right].
Qed.

Lemma in_strip_with drop s c :
  In c s -> drop c = false -> In c (strip_with drop s).
Proof.
  intros Hin D. apply in_rstrip; [|exact D]. now apply in_lstrip.
Qed.

(** ** The shape of a slug *)

Lemma tidy_class_is_hyphen b s c :
  tidy b s = true -> In c s -> hyphen_or_space c = true -> c = "-"%char.
Proof.
  revert b. induction s as [|x s IH]; intros b H Hin Hc; [contradiction|].
  simpl in H. destruct Hin as [-> | Hin].
  - rewrite Hc in H. apply andb_true_iff in H as [H _].
    apply andb_true_iff in H as [H _]. now apply Ascii.eqb_eq in H.
  - destruct (hyphen_or_space x).
    + apply andb_true_iff in H as [_ H]. now apply (IH true).
    + now apply (IH false).
Qed.

Lemma tidy_no_double_hyphen b pre post :
  tidy b (pre ++ "-"%char :: "-"%char :: post) = false.
Proof.
  revert b. induction pre as [|x pre IH]; intros b; simpl.
  - now rewrite andb_false_r.
  - destruct (hyphen_or_space x); [|apply IH].
    rewrite IH. apply andb_false_r.
Qed.

Lemma kept_word_or_class c :
  kept_by_slug c = true -> isword c = true \/ hyphen_or_space c = true.
Proof.
  unfold kept_by_slug, hyphen_or_space. intros H.
  apply orb_true_iff in H as [H | H]; [apply orb_true_iff in H as [H | H]|].
  - now left.
  - right. rewrite H. apply orb_true_r.
  - right. now rewrite H.
Qed.

Lemma space_is_class c : isspace c = true -> hyphen_or_space c = true.
Proof. unfold hyphen_or_space. intros ->. apply orb_true_r. Qed.

Lemma slug_settled_tidy text :
  Forall settled (slugify text) /\ tidy false (slugify text) = true.
Proof.
  rewrite slugify_unfold. split.
  - apply Forall_rstrip, Forall_lstrip, settled_collapse, settled_filter_lower.
  - eapply tidy_rstrip, tidy_lstrip, tidy_collapse.
Qed.

(** X1. A slug is made of word characters and hyphens only, each one
    its own lowercase form; it holds no whitespace, no two hyphens in a
    row, and neither starts nor ends with a hyphen or an underscore. *)
Theorem slug_shape (text : str) :
  Forall (fun c => (isword c = true \/ c = "-"%char)
                   /\ lower_char c = c /\ isspace c = false)
         (slugify text)
  /\ (forall pre post, slugify text <> pre ++ "-"%char :: "-"%char :: post)
  /\ (forall c rest, slugify text = c :: rest -> hyphen_or_underscore c = false)
  /\ (forall front c, slugify text = front ++ [c] ->
                      hyphen_or_underscore c = false).
Proof.
  destruct (slug_settled_tidy text) as [Hs Ht].
  split; [|split; [|split]].
  - apply Forall_forall. intros c Hin.
    rewrite Forall_forall in Hs. destruct (Hs c Hin) as [Hl Hk].
    assert (Hcls : hyphen_or_space c = true -> c = "-"%char)
      by now apply (tidy_class_is_hyphen false (slugify text)).
    split; [|split; [exact Hl|]].
    + destruct (kept_word_or_class c Hk); auto.
    + destruct (isspace c) eqn:Sp; [|reflexivity].
      rewrite (Hcls (space_is_class c Sp)) in Sp. discriminate.
  - intros pre post E. rewrite E, tidy_no_double_hyphen in Ht. discriminate.
  - intros c rest E. rewrite slugify_unfold in E.
    eapply strip_with_first, E.
  - intros front c E. rewrite slugify_unfold in E.
    eapply strip_with_last, E.
Qed.

Lemma isalnum_lower c : isalnum (lower_char c) = isalnum c.
Proof. each_char c. Qed.

Lemma alnum_survives c :
  isalnum c = true ->
  kept_by_slug c = true /\ hyphen_or_space c = false
  /\ hyphen_or_underscore c = false.
Proof. each_char c. Qed.

Lemma not_alnum_kept c :
  isalnum c = false -> kept_by_slug c = true -> hyphen_or_space c = false ->
  hyphen_or_underscore c = true.
Proof. each_char c. Qed.

Lemma in_collapse b s c :
  In c s -> hyphen_or_space c = false -> In c (collapse_runs b s).
Proof.
  intros Hin Hc. revert b. induction s as [|x s IH]; intros b; [contradiction|].
  simpl. destruct Hin as [-> | Hin].
  - rewrite Hc. now left.
  - destruct (hyphen_or_space x); [apply in_or_app|]; right; now apply IH.
Qed.

Lemma collapse_elements b s c :
  In c (collapse_runs b s) ->
  c = "-"%char \/ (In c s /\ hyphen_or_space c = false).
Proof.
  revert b. induction s as [|x s IH]; intros b; simpl; [contradiction|].
  destruct (hyphen_or_space x) eqn:E.
  - intros H. apply in_app_or in H as [H | H].
    + left. destruct b; [contradiction|]. now destruct H.
    + destruct (IH true H) as [-> | [H1 H2]]; auto.
  - intros [<- | H]; [auto|].
    destruct (IH false H) as [-> | [H1 H2]]; auto.
Qed.

(** X2. The anchor is empty exactly for a text without alphanumeric
    character. *)
Theorem slug_empty_iff (text : str) :
  slugify text = "" <-> Forall (fun c => isalnum c = false) text.
Proof.
  rewrite slugify_unfold. split.
  - intros E. apply Forall_forall. intros c Hin.
    destruct (isalnum c) eqn:A; [exfalso | reflexivity].
    rewrite <- isalnum_lower in A.
    destruct (alnum_survives _ A) as [Hk [Hc Hu]].
    assert (H : In (lower_char c)
                  (strip_with hyphen_or_underscore
                     (collapse_runs false (filter kept_by_slug (lower text))))).
    { apply in_strip_with; [|exact Hu]. apply in_collapse; [|exact Hc].
      apply filter_In. split; [|exact Hk]. now apply in_map. }
    rewrite E in H. contradiction.
  - intros H. unfold strip_with. rewrite lstrip_all; [reflexivity|].
    apply Forall_forall. intros c Hin.
    apply collapse_elements in Hin as [-> | [Hin Hc]]; [reflexivity|].
    apply filter_In in Hin as [Hin Hk].
    apply in_map_iff in Hin as [c0 [<- Hin0]].
    rewrite Forall_forall in H. specialize (H c0 Hin0).
    rewrite <- isalnum_lower in H. now apply not_alnum_kept.
Qed.

(** ** The display text *)

Lemma remove_char_gone ch s : ~ In ch (remove_char ch s).
Proof.
  induction s as [|c s IH]; simpl; [tauto|].
  destruct (Ascii.eqb c ch) eqn:E; [exact IH|].
  apply Ascii.eqb_neq in E. intros [H | H]; [congruence | tauto].
Qed.

Lemma in_lstrip_inv drop s c : In c (lstrip drop s) -> In c s.
Proof.
  induction s as [|x s IH]; simpl; [tauto|].
  destruct (drop x); [intros H; right; now apply IH | auto].
Qed.

Lemma in_rstrip_inv drop s c : In c (rstrip drop s) -> In c s.
Proof.
  induction s as [|x s IH]; simpl; [tauto|].
  destruct (rstrip drop s) as [|k ks].
  - destruct (drop x); [contradiction | intros [H | []]; now left].
  - intros [H | H]; [now left | right; now apply IH].
Qed.

(** X3. The display text of a heading holds no ['#'] and has no
    whitespace at either end, whatever the row. *)
Theorem header_text_clean (header : str) :
  ~ In "#"%char (header_text header)
  /\ (forall c rest, header_text header = c :: rest -> isspace c = false)
  /\ (forall front c, header_text header = front ++ [c] -> isspace c = false).
Proof.
  unfold header_text, strip. split; [|split].
  - intros H. apply in_rstrip_inv, in_lstrip_inv in H.
    now apply remove_char_gone in H.
  - intros c rest. apply strip_with_first.
  - intros front c. apply strip_with_last.
Qed.

(** ** Relative links *)

Lemma str_eqb_eq a b : str_eqb a b = true <-> a = b.
Proof.
  revert b. induction a as [|x a IH]; intros [|y b]; simpl;
    try (split; [discriminate | discriminate]); [tauto|].
  rewrite andb_true_iff, Ascii.eqb_eq, IH. split.
  - intros [-> ->]. reflexivity.
  - intros [= -> ->]. auto.
Qed.

Lemma strip_prefix_spec pre l rest :
  strip_prefix pre l = Some rest <-> l = pre ++ rest.
Proof.
  revert l. induction pre as [|x pre IH]; intros l; simpl.
  - split; [now intros [= ->] | now intros ->].
  - destruct l as [|y l]; [split; discriminate|].
    destruct (str_eqb x y) eqn:E.
    + apply str_eqb_eq in E as ->. rewrite IH. split.
      * now intros ->.
      * now intros [= ->].
    + split; [discriminate|]. intros [= -> _].
      assert (str_eqb x x = true) by now apply str_eqb_eq. congruence.
Qed.

Lemma relative_to_ok_iff p q rel_path :
  relative_to p q = Ok rel_path <->
  exists rel, root p = root q /\ parts p = parts q ++ rel
              /\ rel_path = {| root := ""; parts := rel |}.
Proof.
  unfold relative_to. destruct (str_eqb (root p) (root q)) eqn:E.
  - apply str_eqb_eq in E.
    destruct (strip_prefix (parts q) (parts p)) as [rest|] eqn:S.
    + apply strip_prefix_spec in S. split.
      * intros [= <-]. now exists rest.
      * intros [rel [_ [H ->]]]. rewrite S in H.
        apply app_inv_head in H. now subst.
    + split; [discriminate|]. intros [rel [_ [H _]]].
      apply strip_prefix_spec in H. congruence.
  - split; [discriminate|]. intros [rel [H _]].
    apply str_eqb_eq in H. congruence.
Qed.

(** X4. Where the working directory exists and the path can be
    encoded (as every string of this development can): for a path below
    the working directory (same root, the directory's components a
    prefix of the path's) [get_relative_link] returns the quoted rest
    of the path, and it returns nothing else; for any other path, a
    relative one included, it raises [ValueError]. *)
Theorem relative_link_iff (w : world) (f : Path) :
  (forall link,
      get_relative_link w f = Ok link <->
      exists rel, root f = root (cwd w)
                  /\ parts f = parts (cwd w) ++ rel
                  /\ link = quote (Path_str {| root := ""; parts := rel |}))
  /\ ((forall rel, ~ (root f = root (cwd w)
                      /\ parts f = parts (cwd w) ++ rel)) ->
      get_relative_link w f = Raise ValueError).
Proof.
  unfold get_relative_link. split.
  - intros link. destruct (relative_to f (cwd w)) as [rp|e] eqn:R; simpl.
    + apply relative_to_ok_iff in R as [rel [H1 [H2 ->]]]. split.
      * intros [= <-]. now exists rel.
      * intros [rel' [_ [H ->]]]. rewrite H2 in H.
        apply app_inv_head in H. now subst.
    + split; [discriminate|]. intros [rel [H1 [H2 _]]].
      assert (relative_to f (cwd w) = Ok {| root := ""; parts := rel |})
        by (apply relative_to_ok_iff; now exists rel).
      congruence.
  - intros Hout. destruct (relative_to f (cwd w)) as [rp|e] eqn:R; simpl.
    + apply relative_to_ok_iff in R as [rel [H1 [H2 _]]].
      destruct (Hout rel). auto.
    + now rewrite (relative_to_raises _ _ _ R).
Qed.

Lemma relative_link_iff_witness :
  get_relative_link docs_world (Path_of_str "docs/a.md") = Raise ValueError
  /\ get_relative_link docs_world (docs "a b.md") = Ok "a%20b.md".
Proof.
  split.
  - apply (relative_link_iff docs_world (Path_of_str "docs/a.md")).
    intros rel [H _]. discriminate.
  - apply (relative_link_iff docs_world (docs "a b.md")).
    exists ["a b.md"]. repeat split.
Defined.

Lemma quote_plain s :
  Forall (fun c => quote_safe (ord c) = true) s -> quote s = s.
Proof.
  unfold quote, utf8_encode.
  induction 1 as [|c s Hc _ IH]; simpl; [reflexivity|].
  assert (Hlt : (ord c <? 128)%N = true).
  { unfold quote_safe in Hc. now apply andb_true_iff in Hc. }
  unfold utf8_encode_char at 1. rewrite Hlt. simpl.
  rewrite IH. unfold quote_byte. rewrite Hc. unfold ord.
  now rewrite ascii_N_embedding.
Qed.

Lemma join_plain (P : ascii -> Prop) sep items :
  Forall P sep -> Forall (Forall P) items -> Forall P (join sep items).
Proof.
  intros Hsep. induction 1 as [|x items Hx H IH]; simpl; [constructor|].
  destruct items as [|y items]; [exact Hx|].
  apply Forall_app. split; [exact Hx|]. apply Forall_app. now split.
Qed.

(** X5. A file below the working directory whose remaining components
    hold only letters, digits and [_.-~] is linked by its relative path
    as it is: nothing is escaped. *)
Theorem plain_path_linked_verbatim (w : world) (f : Path) (rel : list str) :
  root f = root (cwd w) ->
  parts f = parts (cwd w) ++ rel ->
  Forall (Forall (fun c => quote_safe (ord c) = true)) rel ->
  get_relative_link w f = Ok (Path_str {| root := ""; parts := rel |}).
Proof.
  intros Hroot Hparts Hplain. unfold get_relative_link.
  assert (R : relative_to f (cwd w) = Ok {| root := ""; parts := rel |})
    by (apply relative_to_ok_iff; now exists rel).
  rewrite R. simpl. f_equal. apply quote_plain.
  unfold Path_str. simpl.
  assert (J : Forall (fun c => quote_safe (ord c) = true) (join "/" rel)).
  { apply join_plain; [|exact Hplain]. now repeat constructor. }
  destruct (join "/" rel); [now repeat constructor | exact J].
Qed.

Lemma plain_path_linked_verbatim_witness :
  get_relative_link docs_world
    {| root := "/"; parts := ["w"; "docs"; "sub_dir-1"; "notes~v2.md"] |}
  = Ok "sub_dir-1/notes~v2.md".
Proof.
  apply (plain_path_linked_verbatim docs_world
           {| root := "/"; parts := ["w"; "docs"; "sub_dir-1"; "notes~v2.md"] |}
           ["sub_dir-1"; "notes~v2.md"]).
  - reflexivity.
  - reflexivity.
  - repeat constructor.
Defined.

(** ** The marker in an item *)

Lemma count_app ch a b : count ch (a ++ b) = count ch a + count ch b.
Proof. induction a as [|c a IH]; simpl; [reflexivity|]. rewrite IH. lia. Qed.

Lemma count_absent ch s : ~ In ch s -> count ch s = 0.
Proof.
  induction s as [|c s IH]; intros H; simpl; [reflexivity|].
  destruct (Ascii.eqb c ch) eqn:E.
  - apply Ascii.eqb_eq in E. subst. exfalso. apply H. now left.
  - apply IH. intros Hin. apply H. now right.
Qed.

Lemma header_text_hash_free header : ~ In "#"%char (header_text header).
Proof.
  unfold header_text, strip, strip_with. intros H.
  apply in_rstrip_inv, in_lstrip_inv in H. now apply remove_char_gone in H.
Qed.

Lemma slugify_hash_free text : ~ In "#"%char (slugify text).
Proof.
  destruct (slug_settled_tidy text) as [Hs _]. rewrite Forall_forall in Hs.
  intros H. destruct (Hs _ H) as [_ Hk]. discriminate.
Qed.

Lemma quote_hash_free s : ~ In "#"%char (quote s).
Proof.
  intros H. pose proof (quote_chars s) as Q.
  rewrite Forall_forall in Q. destruct (Q _ H); discriminate.
Qed.

Lemma indentation_hash_free header : ~ In "#"%char (indentation header).
Proof.
  rewrite indentation_spaces. intros H. apply repeat_spec in H. discriminate.
Qed.

Lemma Ok_inj {A} (a b : A) : Ok a = Ok b -> a = b.
Proof. now intros [= ->]. Qed.

(** X6. An item holds exactly one ['#'], the one that introduces the
    anchor: the display text, the quoted path and the anchor hold none. *)
Theorem item_has_one_marker (w : world) (header : str) (f : option Path)
    (line : str) :
  generate_item w header f = Ok line -> count "#" line = 1.
Proof.
  unfold generate_item, get_relative_link.
  pose proof (count_absent _ _ (indentation_hash_free header)) as Hi.
  pose proof (count_absent _ _ (header_text_hash_free header)) as Ht.
  pose proof (count_absent _ _ (slugify_hash_free (header_text header))) as Ha.
  destruct f as [p|].
  - destruct (relative_to p (cwd w)) as [rel|e]; unfold bind; [|discriminate].
    intros H. apply Ok_inj in H. subst line.
    pose proof (count_absent _ _ (quote_hash_free (Path_str rel))) as Hq.
    rewrite !count_app, Hi, Ht, Hq, Ha. reflexivity.
  - intros H. apply Ok_inj in H. subst line.
    rewrite !count_app, Hi, Ht, Ha. reflexivity.
Qed.

Lemma item_has_one_marker_witness :
  count "#" ("    - [C notes](./c%23.md#c-notes)" ++ [LF]) = 1.
Proof.
  apply (item_has_one_marker docs_world ("# C# notes" ++ [LF])
           (Some (docs "c#.md"))).
  reflexivity.
Defined.

(** ** More on [generate_list] *)

Lemma collect_app {A B} (g : A -> result B) l1 l2 :
  collect g (l1 ++ l2)
  = (a <- collect g l1 ;; b <- collect g l2 ;; Ok (a ++ b)).
Proof.
  induction l1 as [|x l1 IH]; simpl.
  - destruct (collect g l2); reflexivity.
  - destruct (g x) as [y|e]; simpl; [|reflexivity].
    rewrite IH. destruct (collect g l1) as [a|e]; simpl; [|reflexivity].
    destruct (collect g l2); reflexivity.
Qed.

Lemma collect_ext_in {A B} (g1 g2 : A -> result B) l :
  (forall x, In x l -> g1 x = g2 x) -> collect g1 l = collect g2 l.
Proof.
  induction l as [|x l IH]; intros H; simpl; [reflexivity|].
  rewrite (H x) by now left.
  rewrite IH by (intros y Hy; apply H; now right). reflexivity.
Qed.

Lemma collect_bare_items w hs :
  collect (fun header => generate_item w header None) hs
  = Ok (map bare_item hs).
Proof.
  induction hs as [|h hs IH]; [reflexivity|].
  cbn [collect map]. change (generate_item w h None) with (Ok (bare_item h)).
  cbn [bind]. now rewrite IH.
Qed.

(** The lines of a source depend on the table only through its depth
    bound and on whether it has several sources. *)
Lemma source_lines_ext w a b f :
  header_levels a = header_levels b ->
  has_multiple_sources a = has_multiple_sources b ->
  source_lines w a f = source_lines w b f.
Proof.
  intros Hl Hm. unfold source_lines, file_argument, find_headers.
  rewrite Hm.
  assert (S : forall rows, scan_rows a rows = scan_rows b rows).
  { intros rows. rewrite !scan_rows_filter. apply filter_ext.
    intros row. unfold is_header. now rewrite Hl. }
  destruct (lookup w f); simpl; [reflexivity|]. now rewrite S.
Qed.

Lemma multiple_with_sources self files :
  has_multiple_sources (with_sources self files) = (1 <? length files).
Proof. reflexivity. Qed.

(** X7. A table of one source renders exactly when its file can be read
    to the end: the result is the title line followed by the bare items
    of the heading rows; otherwise the exception of the file reaches
    the caller.  No other exception is possible. *)
Theorem single_source_markdown (w : world) (self : TableOfContents) (f : Path) :
  source self = [f] ->
  generate_list w self =
  match lookup w f with
  | Opened text None =>
      Ok (title_line self
            ++ concat (map bare_item (scan_rows self (rows_of text))))
  | Opened _ (Some e) => Raise e
  | CannotOpen e => Raise e
  end.
Proof.
  intros Hsrc. rewrite generate_list_collect, Hsrc. simpl collect.
  unfold source_lines, file_argument, has_multiple_sources.
  rewrite Hsrc. simpl Nat.ltb. cbv iota. rewrite collect_bare_items.
  unfold find_headers.
  destruct (lookup w f) as [e | text [e|]]; simpl; try reflexivity.
  now rewrite app_nil_r.
Qed.

Lemma single_source_markdown_witness :
  generate_list docs_world
    (init (inl "/w/docs//./readme.md") DEFAULT_TITLE DEFAULT_HEADER_LEVELS)
  = Ok ("## Table of contents" ++ [LF] ++ "- [A](#a)" ++ [LF]
          ++ "    - [B](#b)" ++ [LF])
  /\ generate_list docs_world
       (init (inl "missing.md") DEFAULT_TITLE DEFAULT_HEADER_LEVELS)
     = Raise FileNotFoundError.
Proof.
  split.
  - apply (single_source_markdown docs_world
             (init (inl "/w/docs//./readme.md") DEFAULT_TITLE
                   DEFAULT_HEADER_LEVELS) readme_md).
    reflexivity.
  - apply (single_source_markdown docs_world
             (init (inl "missing.md") DEFAULT_TITLE DEFAULT_HEADER_LEVELS)
             (Path_of_str "missing.md")).
    reflexivity.
Defined.

Lemma collect_stops {A B} (g : A -> result B) pre x post e :
  (forall y, In y pre -> exists b, g y = Ok b) ->
  g x = Raise e ->
  collect g (pre ++ x :: post) = Raise e.
Proof.
  intros Hpre Hx. induction pre as [|y pre IH]; simpl.
  - now rewrite Hx.
  - destruct (Hpre y) as [b Hb]; [now left|]. rewrite Hb. simpl.
    rewrite IH by (intros z Hz; apply Hpre; now right). reflexivity.
Qed.

Lemma source_lines_total w self f :
  readable (lookup w f) ->
  (has_multiple_sources self = true -> exists rel, relative_to f (cwd w) = Ok rel) ->
  exists block, source_lines w self f = Ok block.
Proof.
  intros Hread Hrel.
  destruct (Forall2_exists (item_of w self)
              (map (pair f) (yielded (find_headers w self f))))
    as [block Hb].
  { intros [g h] Hin. apply in_map_iff in Hin as [h' [[= <- <-] _]].
    unfold item_of, file_argument, generate_item, get_relative_link. simpl.
    destruct (has_multiple_sources self); [|eauto].
    destruct (Hrel eq_refl) as [rel ->]. simpl. eauto. }
  exists block. apply source_lines_ok_iff. split; [|exact Hb].
  now apply readable_ending.
Qed.

(** X8. In a table of several sources, a source that is not below the
    working directory (a relative path, for one) makes [generate_list]
    raise [ValueError] as soon as it yields a heading, when the sources
    before it were rendered. *)
Theorem source_outside_cwd_raises (w : world) (self : TableOfContents)
    (pre post : list Path) (f : Path) :
  has_multiple_sources self = true ->
  source self = pre ++ f :: post ->
  (forall g, In g pre ->
             readable (lookup w g)
             /\ exists rel, relative_to g (cwd w) = Ok rel) ->
  yielded (find_headers w self f) <> [] ->
  (forall rel, ~ (root f = root (cwd w) /\ parts f = parts (cwd w) ++ rel)) ->
  generate_list w self = Raise ValueError.
Proof.
  intros Hm Hsrc Hpre Hrows Hout.
  rewrite generate_list_collect, Hsrc.
  rewrite (collect_stops (source_lines w self) pre f post ValueError);
    [reflexivity | |].
  - intros g Hg. destruct (Hpre g Hg) as [Hr Hrel].
    apply source_lines_total; auto.
  - unfold source_lines, file_argument. rewrite Hm.
    destruct (yielded (find_headers w self f)) as [|h hs]; [congruence|].
    cbn [collect]. unfold generate_item at 1, get_relative_link.
    destruct (relative_to f (cwd w)) as [rp|e] eqn:R.
    + apply relative_to_ok_iff in R as [rel [H1 [H2 _]]].
      destruct (Hout rel). auto.
    + apply relative_to_raises in R as ->. reflexivity.
Qed.

Lemma source_outside_cwd_raises_witness :
  generate_list (resolving docs_world)
    (init (inr [a_md; Path_of_str "readme.md"; b_md])
          DEFAULT_TITLE DEFAULT_HEADER_LEVELS)
  = Raise ValueError.
Proof.
  apply (source_outside_cwd_raises (resolving docs_world)
           (init (inr [a_md; Path_of_str "readme.md"; b_md])
                 DEFAULT_TITLE DEFAULT_HEADER_LEVELS)
           [a_md] [b_md] (Path_of_str "readme.md")).
  - reflexivity.
  - reflexivity.
  - intros g [<- | []]. split; eexists; reflexivity.
  - discriminate.
  - intros rel [H _]. discriminate.
Defined.

Lemma skipn_length_app {A} (a b : list A) : skipn (length a) (a ++ b) = b.
Proof. induction a as [|x a IH]; simpl; auto. Qed.

Lemma generate_list_with_sources w self files :
  generate_list w (with_sources self files)
  = (blocks <- collect (source_lines w (with_sources self files)) files ;;
     Ok (title_line self ++ concat (concat blocks))).
Proof. now rewrite generate_list_collect. Qed.

Lemma source_lines_multi w self l1 l2 f :
  2 <= length l1 -> 2 <= length l2 ->
  source_lines w (with_sources self l1) f
  = source_lines w (with_sources self l2) f.
Proof.
  intros H1 H2. apply source_lines_ext; [reflexivity|].
  rewrite !multiple_with_sources.
  apply Nat.ltb_lt in H1, H2. now rewrite H1, H2.
Qed.

(** X9. Rendering a table of the files [l1 ++ l2] is rendering the
    table of [l1], then the table of [l2], and appending the second
    result without its title line to the first, when both lists hold
    at least two files; an exception of the first, else of the second,
    is the exception of the whole. *)
Theorem markdown_of_concatenation (w : world) (self : TableOfContents)
    (l1 l2 : list Path) :
  2 <= length l1 -> 2 <= length l2 ->
  generate_list w (with_sources self (l1 ++ l2))
  = (out1 <- generate_list w (with_sources self l1) ;;
     out2 <- generate_list w (with_sources self l2) ;;
     Ok (out1 ++ skipn (length (title_line self)) out2)).
Proof.
  intros H1 H2.
  assert (H12 : 2 <= length (l1 ++ l2)) by (rewrite length_app; lia).
  rewrite !generate_list_with_sources, collect_app.
  rewrite (collect_ext_in (source_lines w (with_sources self (l1 ++ l2)))
             (source_lines w (with_sources self l1)) l1)
    by (intros; now apply source_lines_multi).
  rewrite (collect_ext_in (source_lines w (with_sources self (l1 ++ l2)))
             (source_lines w (with_sources self l2)) l2)
    by (intros; now apply source_lines_multi).
  destruct (collect (source_lines w (with_sources self l1)) l1) as [a|e];
    simpl; [|reflexivity].
  destruct (collect (source_lines w (with_sources self l2)) l2) as [b|e];
    simpl; [|reflexivity].
  now rewrite skipn_length_app, !concat_app, app_assoc.
Qed.

Lemma markdown_of_concatenation_witness :
  generate_list docs_world (default_table [a_md; b_md; readme_md; a_md])
  = Ok ("## Table of contents" ++ [LF]
          ++ "- [X](./a.md#x)" ++ [LF] ++ "- [Y](./b.md#y)" ++ [LF]
          ++ "- [A](./readme.md#a)" ++ [LF] ++ "    - [B](./readme.md#b)" ++ [LF]
          ++ "- [X](./a.md#x)" ++ [LF]).
Proof.
  apply (markdown_of_concatenation docs_world (default_table [])
           [a_md; b_md] [readme_md; a_md]); simpl; lia.
Defined.

(** X10. In a table of several sources, a readable source without
    heading rows contributes nothing: leaving it out gives the same
    result, as long as at least two sources remain. *)
Theorem heading_free_source_ignored (w : world) (self : TableOfContents)
    (pre post : list Path) (f : Path) :
  2 <= length (pre ++ post) ->
  readable (lookup w f) ->
  yielded (find_headers w self f) = [] ->
  generate_list w (with_sources self (pre ++ f :: post))
  = generate_list w (with_sources self (pre ++ post)).
Proof.
  intros Hlen Hread Hnone.
  assert (Hlen' : 2 <= length (pre ++ f :: post)).
  { rewrite length_app in *. simpl. lia. }
  rewrite !generate_list_with_sources.
  rewrite (collect_ext_in _
             (source_lines w (with_sources self (pre ++ post)))
             (pre ++ f :: post))
    by (intros; now apply source_lines_multi).
  set (g := source_lines w (with_sources self (pre ++ post))).
  assert (Hf : g f = Ok []).
  { unfold g, source_lines.
    assert (E : find_headers w (with_sources self (pre ++ post)) f
                = find_headers w self f).
    { unfold find_headers. destruct (lookup w f); [reflexivity|].
      f_equal. rewrite !scan_rows_filter. now apply filter_ext. }
    rewrite E, Hnone. simpl.
    now rewrite (readable_ending w self f Hread). }
  rewrite !collect_app. simpl collect. rewrite Hf. simpl.
  destruct (collect g pre) as [a|e]; simpl; [|reflexivity].
  destruct (collect g post) as [b|e]; simpl; [|reflexivity].
  now rewrite !concat_app.
Qed.

Lemma heading_free_source_ignored_witness :
  generate_list notes_world
    (with_sources (default_table []) ([a_md] ++ notes_md :: [b_md]))
  = generate_list notes_world
      (with_sources (default_table []) ([a_md] ++ [b_md])).
Proof.
  apply (heading_free_source_ignored notes_world (default_table [])
           [a_md] [b_md] notes_md).
  - simpl. lia.
  - eexists. reflexivity.
  - reflexivity.
Defined.

(** X11. Lowering the depth bound only removes headings: what
    [find_headers] yields under the lower bound are the rows it yields
    under the higher one that hold few enough markers, in the same
    order. *)
Theorem lower_bound_filters_headings (w : world) (a b : TableOfContents)
    (f : Path) :
  (header_levels a <= header_levels b)%Z ->
  yielded (find_headers w a f)
  = filter (fun row => (Z.of_nat (count "#" row) <=? header_levels a)%Z)
           (yielded (find_headers w b f)).
Proof.
  intros Hle. unfold find_headers.
  destruct (lookup w f) as [e | text failure]; simpl; [reflexivity|].
  induction (rows_of text) as [|row rows IH]; simpl; [reflexivity|].
  unfold is_header.
  destruct (startswith "#" row); simpl; [|exact IH].
  destruct (Z.of_nat (count "#" row) <=? header_levels a)%Z eqn:A.
  - pose proof (proj1 (Z.leb_le _ _) A) as A'.
    assert (B : (Z.of_nat (count "#" row) <=? header_levels b)%Z = true)
      by (apply Z.leb_le; lia).
    rewrite B. simpl. rewrite A. now rewrite IH.
  - destruct (Z.of_nat (count "#" row) <=? header_levels b)%Z; simpl;
      [rewrite A|]; exact IH.
Qed.

Lemma lower_bound_filters_headings_witness :
  yielded (find_headers docs_world
             (init (inr [readme_md]) DEFAULT_TITLE 1) readme_md)
  = ["# A" ++ [LF]].
Proof.
  apply (lower_bound_filters_headings docs_world
           (init (inr [readme_md]) DEFAULT_TITLE 1)
           (default_table [readme_md]) readme_md).
  discriminate.
Defined.

(** ** [sorted] and [from_cwd] *)

Section SortingFacts.
Context {A K : Type} (key : A -> K) (ltb : K -> K -> bool).

Lemma insert_by_perm x l : Permutation (insert_by key ltb x l) (x :: l).
Proof.
  induction l as [|y l IH]; simpl; [reflexivity|].
  destruct (ltb (key x) (key y)); [reflexivity|].
  rewrite IH. apply perm_swap.
Qed.

Lemma fold_insert_perm l placed :
  Permutation (fold_left (fun placed x => insert_by key ltb x placed) l placed)
              (l ++ placed).
Proof.
  revert placed. induction l as [|x l IH]; intros placed; simpl; [reflexivity|].
  rewrite IH, insert_by_perm. symmetry. apply Permutation_middle.
Qed.

(** [sorted] returns the items it was given. *)
Lemma sorted_perm l : Permutation (sorted key ltb l) l.
Proof. unfold sorted. rewrite fold_insert_perm. now rewrite app_nil_r. Qed.

Hypothesis ltb_asym : forall a b, ltb a b = true -> ltb b a = false.
Hypothesis leb_trans :
  forall a b c, ltb b a = false -> ltb c b = false -> ltb c a = false.

Lemma insert_by_sorted x l :
  StronglySorted (key_le key ltb) l -> StronglySorted (key_le key ltb) (insert_by key ltb x l).
Proof.
  induction 1 as [|y l Hs IH Hy]; simpl.
  - constructor; constructor.
  - destruct (ltb (key x) (key y)) eqn:E.
    + constructor; [now constructor|].
      assert (Hxy : key_le key ltb x y) by (apply ltb_asym, E).
      constructor; [exact Hxy|].
      rewrite Forall_forall in *. intros z Hz.
      apply (leb_trans _ (key y)); [exact Hxy | now apply Hy].
    + constructor; [exact IH|].
      rewrite Forall_forall in *. intros z Hz.
      apply (Permutation_in _ (insert_by_perm x l)) in Hz.
      destruct Hz as [<- | Hz]; [exact E | now apply Hy].
Qed.

Lemma fold_insert_sorted l placed :
  StronglySorted (key_le key ltb) placed ->
  StronglySorted (key_le key ltb)
    (fold_left (fun placed x => insert_by key ltb x placed) l placed).
Proof.
  revert placed. induction l as [|x l IH]; intros placed H; simpl; [exact H|].
  now apply IH, insert_by_sorted.
Qed.

Lemma sorted_sorted l : StronglySorted (key_le key ltb) (sorted key ltb l).
Proof. apply fold_insert_sorted. constructor. Qed.
End SortingFacts.

Lemma str_ltb_asym a b : str_ltb a b = true -> str_ltb b a = false.
Proof.
  revert b. induction a as [|x a IH]; intros [|y b]; simpl; auto; try discriminate.
  destruct (N.ltb_spec (ord x) (ord y)), (N.ltb_spec (ord y) (ord x));
    auto; try lia; discriminate.
Qed.

Lemma str_leb_trans a b c :
  str_ltb b a = false -> str_ltb c b = false -> str_ltb c a = false.
Proof.
  revert b c. induction a as [|x a IH]; intros [|y b] [|z c]; simpl;
    auto; try discriminate.
  destruct (N.ltb_spec (ord y) (ord x)), (N.ltb_spec (ord x) (ord y)),
           (N.ltb_spec (ord z) (ord y)), (N.ltb_spec (ord y) (ord z)),
           (N.ltb_spec (ord z) (ord x)), (N.ltb_spec (ord x) (ord z));
    try lia; try discriminate; auto.
  apply IH.
Qed.

(** X12. With the default key, [from_cwd] builds the table of the files
    the scan found, each taken below the working directory, arranged in
    ascending order of their path strings (code point by code point);
    title and depth bound are the ones given. *)
Theorem from_cwd_sorts_by_path (t : tree) (w : world) (pattern heading : str)
    (levels : Z) (found : list (list str)) :
  t pattern = Ok found ->
  exists self,
    from_cwd t w pattern heading levels Path_str str_ltb = Ok self
    /\ Permutation (source self) (map (child (cwd w)) found)
    /\ StronglySorted path_le (source self)
    /\ title self = heading
    /\ header_levels self = levels.
Proof.
  intros Hfound. unfold from_cwd, rglob. rewrite Hfound. simpl.
  eexists. split; [reflexivity|]. simpl. split; [|split; [|split]].
  - apply sorted_perm.
  - apply (sorted_sorted Path_str str_ltb str_ltb_asym str_leb_trans).
  - reflexivity.
  - reflexivity.
Qed.

Lemma from_cwd_sorts_by_path_witness :
  exists self,
    from_cwd_default docs_tree docs_world = Ok self
    /\ Permutation (source self) [readme_md; b_md; a_md]
    /\ StronglySorted path_le (source self)
    /\ title self = DEFAULT_TITLE
    /\ header_levels self = DEFAULT_HEADER_LEVELS.
Proof.
  apply (from_cwd_sorts_by_path docs_tree docs_world "*.md" DEFAULT_TITLE
           DEFAULT_HEADER_LEVELS [["readme.md"]; ["b.md"]; ["a.md"]]).
  reflexivity.
Defined.

Lemma relative_to_child base rel :
  relative_to (child base rel) base = Ok {| root := ""; parts := rel |}.
Proof. apply relative_to_ok_iff. now exists rel. Qed.

(** X13. Where the working directory exists and stays the same, and
    the file names can be encoded (as every string of this development
    can): a table built by [from_cwd], whatever the key, fails to
    render only when one of its files fails to be read, with the
    exception of that file: its sources lie below the working
    directory, so no relative link raises [ValueError].  When every
    file can be read it renders. *)
Theorem from_cwd_renders {K : Type} (t : tree) (w : world)
    (pattern title : str) (levels : Z) (sort : Path -> K)
    (ltb : K -> K -> bool) (self : TableOfContents) :
  from_cwd t w pattern title levels sort ltb = Ok self ->
  (forall e, generate_list w self = Raise e ->
             exists f, In f (source self) /\ fails_with (lookup w f) e)
  /\ ((forall f, In f (source self) -> readable (lookup w f)) ->
      exists out, generate_list w self = Ok out).
Proof.
  unfold from_cwd, rglob. destruct (t pattern) as [found|e0]; simpl; [|discriminate].
  intros H. apply Ok_inj in H. subst self. simpl.
  set (self := init (inr (sorted sort ltb (map (child (cwd w)) found)))
                    title levels).
  assert (Hbelow : forall f, In f (source self) ->
                             exists rel, relative_to f (cwd w) = Ok rel).
  { intros f Hin. simpl in Hin.
    apply (Permutation_in _ (sorted_perm sort ltb _)) in Hin.
    apply in_map_iff in Hin as [rel [<- _]].
    eexists. apply relative_to_child. }
  assert (Hraise : forall e, generate_list w self = Raise e ->
                     exists f, In f (source self) /\ fails_with (lookup w f) e).
  { intros e He. apply generate_list_raises in He as [f [Hin [H | [_ [_ H]]]]].
    - now exists f.
    - destruct (Hbelow f Hin) as [rel Hrel]. congruence. }
  split; [exact Hraise|].
  intros Hread. destruct (generate_list w self) as [out|e] eqn:G; [eauto|].
  destruct (Hraise e eq_refl) as [f [Hin [H | [text H]]]];
    destruct (Hread f Hin) as [text' H']; congruence.
Qed.

Lemma from_cwd_renders_witness :
  exists out,
    generate_list docs_world (default_table [a_md; b_md; readme_md]) = Ok out.
Proof.
  apply (from_cwd_renders docs_tree docs_world "*.md" DEFAULT_TITLE
           DEFAULT_HEADER_LEVELS Path_str str_ltb
           (default_table [a_md; b_md; readme_md]) eq_refl).
  intros f [<- | [<- | [<- | []]]]; eexists; reflexivity.
Defined.

(** ** Line ends *)

Lemma translate_without_cr text :
  ~ In CR text -> translate_newlines text = text.
Proof.
  induction text as [|c s IH]; intros H; [reflexivity|].
  simpl. destruct (Ascii.eqb c CR) eqn:E.
  - apply Ascii.eqb_eq in E. subst. destruct H. now left.
  - rewrite IH; [reflexivity|]. intros Hin. apply H. now right.
Qed.

Lemma translate_crlf text :
  ~ In CR text -> translate_newlines (to_crlf text) = text.
Proof.
  induction text as [|c s IH]; intros H; [reflexivity|].
  assert (Hs : ~ In CR s) by (intros Hin; apply H; now right).
  simpl to_crlf. destruct (Ascii.eqb c LF) eqn:E.
  - apply Ascii.eqb_eq in E. subst c.
    change (translate_newlines (CR :: LF :: to_crlf s))
      with (LF :: translate_newlines (to_crlf s)).
    now rewrite IH.
  - simpl. destruct (Ascii.eqb c CR) eqn:E'.
    + apply Ascii.eqb_eq in E'. subst. destruct H. now left.
    + now rewrite IH.
Qed.

(** X14. Storing the sources with Windows line ends does not change
    the rendered table: [\r\n] is read as [\n]. *)
Theorem crlf_sources_render_alike (w : world) (self : TableOfContents) :
  (forall f text failure,
      In f (source self) -> lookup w f = Opened text failure ->
      ~ In CR text) ->
  generate_list (with_crlf w) self = generate_list w self.
Proof.
  intros Hcr. rewrite !generate_list_collect. f_equal.
  apply collect_ext_in. intros f Hin.
  unfold source_lines.
  assert (E : find_headers (with_crlf w) self f = find_headers w self f).
  { unfold find_headers. simpl.
    destruct (lookup w f) as [e | text failure] eqn:L; [reflexivity|].
    unfold rows_of.
    rewrite (translate_crlf text), (translate_without_cr text);
      eauto. }
  rewrite E. reflexivity.
Qed.

Lemma crlf_sources_render_alike_witness :
  generate_list (with_crlf docs_world) (default_table [readme_md; a_md])
  = generate_list docs_world (default_table [readme_md; a_md]).
Proof.
  apply (crlf_sources_render_alike docs_world (default_table [readme_md; a_md])).
  intros f text failure [<- | [<- | []]] [= <- _] Hin;
    simpl in Hin; intuition discriminate.
Defined.

(** ** Link targets and rendered tables *)

Lemma quote_safe_target_char c :
  quote_safe (ord c) = true -> target_char c = true.
Proof. each_char c. Qed.

Lemma word_target_char c : isword c = true -> target_char c = true.
Proof. each_char c. Qed.

Lemma quote_target_chars s :
  Forall (fun c => target_char c = true) (quote s).
Proof.
  eapply Forall_impl; [|apply quote_chars].
  intros c [H | ->]; [now apply quote_safe_target_char | reflexivity].
Qed.

Lemma slugify_target_chars text :
  Forall (fun c => target_char c = true) (slugify text).
Proof.
  destruct (slug_settled_tidy text) as [Hs Ht].
  apply Forall_forall. intros c Hin.
  rewrite Forall_forall in Hs. destruct (Hs c Hin) as [_ Hk].
  destruct (kept_word_or_class c Hk) as [H | H].
  - now apply word_target_char.
  - now rewrite (tidy_class_is_hyphen false _ c Ht Hin H).
Qed.

(** X15. The link target of an item holds neither whitespace nor a
    parenthesis, whatever the heading and the file name, so the target
    ends where the item's closing parenthesis stands; the display text
    is the heading's text as it is. *)
Theorem link_target_is_clean (w : world) (header : str) (f : option Path)
    (line : str) :
  generate_item w header f = Ok line ->
  exists target,
    line = indentation header ++ "- [" ++ header_text header ++ "]("
             ++ target ++ ")" ++ [LF]
    /\ Forall (fun c => target_char c = true) target.
Proof.
  unfold generate_item, get_relative_link.
  pose proof (slugify_target_chars (header_text header)) as Ha.
  destruct f as [p|].
  - destruct (relative_to p (cwd w)) as [rel|e]; unfold bind; [|discriminate].
    intros H. apply Ok_inj in H. subst line.
    exists ("./" ++ quote (Path_str rel) ++ "#" ++ slugify (header_text header)).
    split; [now rewrite <- !app_assoc|].
    apply Forall_app. split; [now repeat constructor|].
    apply Forall_app. split; [apply quote_target_chars|].
    apply Forall_app. split; [now repeat constructor | exact Ha].
  - intros H. apply Ok_inj in H. subst line.
    exists ("#" ++ slugify (header_text header)).
    split; [now rewrite <- !app_assoc|].
    apply Forall_app. split; [now repeat constructor | exact Ha].
Qed.

Lemma link_target_is_clean_witness :
  exists target,
    "- [My (draft) notes](./my%20%28draft%29.md#my-draft-notes)" ++ [LF]
    = indentation ("# My (draft) notes" ++ [LF]) ++ "- ["
        ++ header_text ("# My (draft) notes" ++ [LF]) ++ "](" ++ target
        ++ ")" ++ [LF]
    /\ Forall (fun c => target_char c = true) target.
Proof.
  apply (link_target_is_clean docs_world ("# My (draft) notes" ++ [LF])
           (Some (docs "my (draft).md"))).
  reflexivity.
Defined.

Lemma item_start_not_marker n rest :
  startswith "#" (repeat " "%char n ++ "- [" ++ rest) = false.
Proof. destruct n; reflexivity. Qed.

(** ** The rendered table, exactly *)

Lemma ending_none_readable w self f :
  ending (find_headers w self f) = None <-> readable (lookup w f).
Proof.
  split; [|apply readable_ending].
  unfold find_headers, readable.
  destruct (lookup w f) as [e | text [e|]]; simpl; try discriminate.
  intros _. now exists text.
Qed.

Lemma Forall2_in_l {A B} (R : A -> B -> Prop) l ys x :
  Forall2 R l ys -> In x l -> exists y, R x y.
Proof.
  induction 1 as [|a b l ys Hab _ IH]; intros Hin; [contradiction|].
  destruct Hin as [<- | Hin]; eauto.
Qed.

Lemma item_of_linkable w self entry line :
  item_of w self entry line ->
  has_multiple_sources self = true ->
  exists rel, relative_to (fst entry) (cwd w) = Ok rel.
Proof.
  unfold item_of, file_argument. intros H M. rewrite M in H.
  unfold generate_item, get_relative_link in H.
  destruct (relative_to (fst entry) (cwd w)) as [rel|e]; [eauto | discriminate].
Qed.

Lemma item_of_total w self entry :
  (has_multiple_sources self = true ->
   exists rel, relative_to (fst entry) (cwd w) = Ok rel) ->
  exists line, item_of w self entry line.
Proof.
  intros Hrel. unfold item_of, file_argument, generate_item.
  destruct (has_multiple_sources self); [|eauto].
  destruct (Hrel eq_refl) as [rel Hr].
  unfold get_relative_link. rewrite Hr. simpl. eauto.
Qed.

(** C7. For every list of sources [generate_list] returns a string
    exactly when every source can be read to its end and, in a table of
    several sources, every source that has a heading lies below the
    working directory.  The string it returns is the title line
    followed by one item per recognized heading, each item one line,
    the headings taken source by source in the order given and, within
    a source, in the order of their rows. *)
Theorem render_preserves_order (w : world) (self : TableOfContents) :
  ((exists out, generate_list w self = Ok out) <->
   (forall f, In f (source self) -> readable (lookup w f))
   /\ (has_multiple_sources self = true ->
       forall entry, In entry (headings_in_order w self) ->
                     exists rel, relative_to (fst entry) (cwd w) = Ok rel))
  /\ (forall out,
        generate_list w self = Ok out ->
        exists lines,
          out = title_line self ++ concat lines
          /\ length lines = length (headings_in_order w self)
          /\ Forall2 (item_of w self) (headings_in_order w self) lines
          /\ Forall one_line lines).
Proof.
  split; [split|].
  - intros [out H]. apply generate_list_ok_iff in H as [Hend [lines [Hl _]]].
    split.
    + intros f Hf. apply (ending_none_readable w self), Hend, Hf.
    + intros M entry Hin.
      destruct (Forall2_in_l _ _ _ _ Hl Hin) as [line Hline].
      eapply item_of_linkable; eassumption.
  - intros [Hread Hrel].
    destruct (Forall2_exists (item_of w self) (headings_in_order w self))
      as [lines Hlines].
    { intros entry Hin. apply item_of_total. intros M. now apply Hrel. }
    exists (title_line self ++ concat lines).
    apply generate_list_ok_iff. split.
    + intros f Hf. apply readable_ending, Hread, Hf.
    + now exists lines.
  - intros out H. apply generate_list_ok_iff in H as [_ [lines [Hl ->]]].
    exists lines. split; [reflexivity|]. split; [|split].
    + symmetry. eapply Forall2_length, Hl.
    + exact Hl.
    + eapply Forall2_Forall_r; [|exact Hl].
      intros entry line Hin Hitem.
      eapply generate_item_one_line; [|exact Hitem].
      eapply headings_lf_only_last, Hin.
Qed.

Lemma render_preserves_order_witness :
  (forall rel,
      relative_to (Path_of_str "notes.md") (cwd (resolving notes_world))
      <> Ok rel)
  /\ exists out,
       generate_list (resolving notes_world)
         (default_table [b_md; Path_of_str "notes.md"; readme_md]) = Ok out.
Proof.
  split; [discriminate|].
  apply (proj1 (render_preserves_order (resolving notes_world)
                  (default_table [b_md; Path_of_str "notes.md"; readme_md]))).
  split.
  - intros f [<- | [<- | [<- | []]]]; eexists; reflexivity.
  - intros _ entry [<- | [<- | [<- | []]]]; eexists; reflexivity.
Defined.

(** ** The exception that reaches the caller *)

Lemma source_lines_without_headings w self f :
  yielded (find_headers w self f) = [] ->
  source_lines w self f
  = match ending (find_headers w self f) with
    | None => Ok []
    | Some e => Raise e
    end.
Proof. intros H. unfold source_lines. now rewrite H. Qed.









(** ** A rendered table read back *)

Lemma translate_cr_free_bounded n :
  forall s, length s <= n -> ~ In CR (translate_newlines s).
Proof.
  induction n as [|n IH]; intros [|c s] Hlen; simpl in *; try tauto; try lia.
  destruct (Ascii.eqb c CR) eqn:E.
  - destruct s as [|d s]; [intros [H | []]; discriminate|].
    simpl in Hlen. destruct (Ascii.eqb d LF).
    + intros [H | H]; [discriminate|]. apply (IH s); [lia | exact H].
    + intros [H | H]; [discriminate|]. apply (IH (d :: s)); [simpl; lia | exact H].
  - apply Ascii.eqb_neq in E.
    intros [H | H]; [congruence|]. apply (IH s); [lia | exact H].
Qed.

Lemma translate_cr_free s : ~ In CR (translate_newlines s).
Proof. apply (translate_cr_free_bounded (length s)). lia. Qed.

Lemma rows_from_elements cur s row c :
  In row (rows_from cur s) -> In c row -> In c cur \/ In c s.
Proof.
  assert (Hrev : forall z l, In c (rev l ++ [z]) -> In c (z :: l)).
  { intros z l H. apply in_app_or in H as [H | [<- | []]];
      [right; now apply in_rev | now left]. }
  revert cur. induction s as [|x s IH]; intros cur; simpl.
  - destruct cur as [|y cur]; [contradiction|].
    intros [<- | []] Hc. left. now apply Hrev.
  - destruct (Ascii.eqb x LF) eqn:E.
    + intros [<- | Hrow] Hc.
      * apply Hrev in Hc.
        destruct Hc as [<- | Hc]; [right; now left | now left].
      * destruct (IH [] Hrow Hc) as [[] | H]. right. now right.
    + intros Hrow Hc. destruct (IH (x :: cur) Hrow Hc) as [[<- | H] | H].
      * right. now left.
      * now left.
      * right. now right.
Qed.

(** The rows of a file hold no carriage return. *)
Lemma rows_of_cr_free text row : In row (rows_of text) -> ~ In CR row.
Proof.
  intros Hrow Hc.
  destruct (rows_from_elements _ _ _ _ Hrow Hc) as [[] | H].
  now apply translate_cr_free in H.
Qed.

Lemma in_remove_char_inv ch s c : In c (remove_char ch s) -> In c s.
Proof.
  induction s as [|x s IH]; simpl; [tauto|].
  destruct (Ascii.eqb x ch); [intros H; right; now apply IH|].
  intros [H | H]; [now left | right; now apply IH].
Qed.

Lemma header_text_cr_free header :
  ~ In CR header -> ~ In CR (header_text header).
Proof.
  intros H Hin. apply H. unfold header_text, strip, strip_with in Hin.
  now apply in_rstrip_inv, in_lstrip_inv, in_remove_char_inv in Hin.
Qed.

Lemma slugify_cr_free text : ~ In CR (slugify text).
Proof.
  destruct (slug_settled_tidy text) as [_ Ht]. intros Hin.
  pose proof (tidy_class_is_hyphen false _ CR Ht Hin eq_refl). discriminate.
Qed.

Lemma quote_cr_free s : ~ In CR (quote s).
Proof.
  intros H. pose proof (quote_chars s) as Q.
  rewrite Forall_forall in Q. destruct (Q CR H); discriminate.
Qed.

Lemma indentation_cr_free header : ~ In CR (indentation header).
Proof.
  rewrite indentation_spaces. intros H. apply repeat_spec in H. discriminate.
Qed.

(** The item of a row of a file holds no carriage return. *)
Lemma generate_item_cr_free w header f line :
  ~ In CR header -> generate_item w header f = Ok line -> ~ In CR line.
Proof.
  intros Hrow. unfold generate_item, get_relative_link.
  pose proof (header_text_cr_free header Hrow) as Ht.
  pose proof (slugify_cr_free (header_text header)) as Ha.
  pose proof (indentation_cr_free header) as Hi.
  destruct f as [p|].
  - destruct (relative_to p (cwd w)) as [rel|e]; unfold bind; [|discriminate].
    intros H. apply Ok_inj in H. subst line.
    pose proof (quote_cr_free (Path_str rel)) as Hq.
    rewrite !in_app_iff. simpl. intuition discriminate.
  - intros H. apply Ok_inj in H. subst line.
    rewrite !in_app_iff. simpl. intuition discriminate.
Qed.

Lemma translate_cr_lf s :
  translate_newlines (CR :: LF :: s) = LF :: translate_newlines s.
Proof. reflexivity. Qed.

Lemma translate_cr_other d s :
  d <> LF ->
  translate_newlines (CR :: d :: s) = LF :: translate_newlines (d :: s).
Proof.
  intros H. apply Ascii.eqb_neq in H.
  change (translate_newlines (CR :: d :: s))
    with (if Ascii.eqb d LF then LF :: translate_newlines s
          else LF :: translate_newlines (d :: s)).
  now rewrite H.
Qed.

Lemma translate_other c s :
  c <> CR -> translate_newlines (c :: s) = c :: translate_newlines s.
Proof.
  intros H. apply Ascii.eqb_neq in H. simpl. now rewrite H.
Qed.

Lemma translate_app_lf_bounded n :
  forall a b, length a <= n ->
  translate_newlines (a ++ LF :: b)
  = translate_newlines (a ++ [LF]) ++ translate_newlines b.
Proof.
  induction n as [|n IH]; intros [|c a] b Hlen; simpl in Hlen; try lia;
    try reflexivity.
  rewrite <- !app_comm_cons.
  destruct (ascii_dec c CR) as [-> | Hc].
  - destruct a as [|d a]; [reflexivity|].
    rewrite <- !app_comm_cons. simpl in Hlen.
    destruct (ascii_dec d LF) as [-> | Hd].
    + rewrite !translate_cr_lf, (IH a b) by lia. reflexivity.
    + rewrite !(translate_cr_other d) by exact Hd.
      rewrite !app_comm_cons, (IH (d :: a) b) by (simpl; lia). reflexivity.
  - rewrite !(translate_other c) by exact Hc.
    rewrite (IH a b) by lia. reflexivity.
Qed.

Lemma translate_app_lf a b :
  translate_newlines (a ++ LF :: b)
  = translate_newlines (a ++ [LF]) ++ translate_newlines b.
Proof. apply (translate_app_lf_bounded (length a)). lia. Qed.

Lemma translate_ends_lf_bounded n :
  forall a, length a <= n ->
  exists a', translate_newlines (a ++ [LF]) = a' ++ [LF].
Proof.
  induction n as [|n IH]; intros [|c a] Hlen; simpl in Hlen; try lia;
    try (now exists []).
  rewrite <- app_comm_cons.
  destruct (ascii_dec c CR) as [-> | Hc].
  - destruct a as [|d a]; [now exists []|].
    rewrite <- app_comm_cons. simpl in Hlen.
    destruct (ascii_dec d LF) as [-> | Hd].
    + rewrite translate_cr_lf. destruct (IH a) as [a' ->]; [lia|].
      now exists (LF :: a').
    + rewrite (translate_cr_other d) by exact Hd.
      rewrite app_comm_cons. destruct (IH (d :: a)) as [a' ->]; [simpl; lia|].
      now exists (LF :: a').
  - rewrite (translate_other c) by exact Hc.
    destruct (IH a) as [a' ->]; [lia|]. now exists (c :: a').
Qed.

Lemma rows_from_app_lf cur a y :
  rows_from cur (a ++ LF :: y) = rows_from cur (a ++ [LF]) ++ rows_from [] y.
Proof.
  revert cur. induction a as [|c a IH]; intros cur; simpl; [reflexivity|].
  destruct (Ascii.eqb c LF); [now rewrite IH | apply IH].
Qed.

Lemma rows_from_line cur body y :
  ~ In LF body ->
  rows_from cur (body ++ LF :: y) = (rev cur ++ body ++ [LF]) :: rows_from [] y.
Proof.
  revert cur. induction body as [|c body IH]; intros cur H; simpl.
  - reflexivity.
  - assert (Hc : Ascii.eqb c LF = false).
    { apply Ascii.eqb_neq. intros ->. apply H. now left. }
    rewrite Hc, IH by (intros Hin; apply H; now right).
    simpl. now rewrite <- app_assoc.
Qed.

Lemma rows_from_lines lines :
  Forall one_line lines -> rows_from [] (concat lines) = lines.
Proof.
  induction 1 as [|line lines [body [-> Hb]] _ IH]; [reflexivity|].
  simpl concat. rewrite <- app_assoc. simpl app.
  now rewrite rows_from_line, IH.
Qed.

Lemma scan_rows_app self a b :
  scan_rows self (a ++ b) = scan_rows self a ++ scan_rows self b.
Proof. rewrite !scan_rows_filter. apply filter_app. Qed.

Lemma item_not_header w reader header f line :
  generate_item w header f = Ok line -> is_header reader line = false.
Proof.
  intros H. apply generate_item_shape in H as [rest ->].
  rewrite indentation_spaces. unfold is_header.
  now rewrite item_start_not_marker.
Qed.

(** The rows of a rendered table are the rows of its title line, then
    its items. *)
Lemma rows_of_rendered w self out :
  generate_list w self = Ok out ->
  exists lines,
    rows_of out = rows_of (title_line self) ++ lines
    /\ Forall (fun line => exists header f,
                   generate_item w header f = Ok line) lines.
Proof.
  intros H. apply generate_list_ok_iff in H as [_ [lines [Hl ->]]].
  exists lines.
  assert (Hone : Forall one_line lines).
  { eapply Forall2_Forall_r; [|exact Hl]. intros entry line Hin Hitem.
    eapply generate_item_one_line; [|exact Hitem].
    eapply headings_lf_only_last, Hin. }
  assert (Hcr : ~ In CR (concat lines)).
  { intros Hin. apply in_concat in Hin as [line [Hline Hc]].
    revert Hc. change (~ In CR line).
    assert (F : Forall (fun line => ~ In CR line) lines).
    { eapply Forall2_Forall_r; [|exact Hl]. intros [f h] ln Hin Hitem.
      eapply generate_item_cr_free; [|exact Hitem].
      unfold headings_in_order in Hin.
      apply in_flat_map in Hin as [f0 [_ Hin]].
      apply in_map_iff in Hin as [h0 [[= <- <-] Hin]]. simpl.
      unfold find_headers in Hin.
      destruct (lookup w f0) as [e | text failure]; simpl in Hin; [contradiction|].
      apply in_scan_rows in Hin as [Hin _]. eapply rows_of_cr_free, Hin. }
    rewrite Forall_forall in F. now apply F. }
  split.
  - set (T := "## " ++ title self).
    assert (Et : title_line self = T ++ [LF]) by apply app_assoc.
    rewrite Et. unfold rows_of.
    replace ((T ++ [LF]) ++ concat lines) with (T ++ LF :: concat lines)
      by now rewrite <- app_assoc.
    rewrite (translate_app_lf T (concat lines)).
    destruct (translate_ends_lf_bounded _ T (le_n _)) as [a' E].
    rewrite E, (translate_without_cr _ Hcr).
    replace ((a' ++ [LF]) ++ concat lines) with (a' ++ LF :: concat lines)
      by now rewrite <- app_assoc.
    now rewrite rows_from_app_lf, (rows_from_lines lines Hone).
  - eapply Forall2_Forall_r; [|exact Hl].
    intros entry line _ Hitem. unfold item_of in Hitem. eauto.
Qed.

(** X16. A rendered table saved to a file and read back as a source:
    the only headings [find_headers] can yield from it are rows of the
    title line, for any depth bound, since no item is a heading row (an
    item starts with a space or with its bullet).  For a title without
    line break the title line is its one row, and it is yielded exactly
    when the bound admits its two markers and those of the title. *)
Theorem rendered_table_as_source (w : world) (self : TableOfContents)
    (out : str) (w' : world) (g : Path) (failure : option exn)
    (reader : TableOfContents) :
  generate_list w self = Ok out ->
  lookup w' g = Opened out failure ->
  yielded (find_headers w' reader g)
  = scan_rows reader (rows_of (title_line self))
  /\ (~ In LF (title self) -> ~ In CR (title self) ->
      yielded (find_headers w' reader g)
      = if (2 + Z.of_nat (count "#" (title self)) <=? header_levels reader)%Z
        then [title_line self] else []).
Proof.
  intros Hout Hfile.
  destruct (rows_of_rendered w self out Hout) as [lines [Hrows Hitems]].
  assert (E : yielded (find_headers w' reader g)
              = scan_rows reader (rows_of (title_line self))).
  { unfold find_headers. rewrite Hfile. simpl.
    rewrite Hrows, scan_rows_app.
    assert (N : scan_rows reader lines = []).
    { clear Hrows. induction Hitems as [|line lines [h [f Hl]] _ IH];
        [reflexivity|].
      simpl. now rewrite (item_not_header _ reader _ _ _ Hl). }
    now rewrite N, app_nil_r. }
  split; [exact E|].
  intros Hlf Hcr. rewrite E.
  assert (R : rows_of (title_line self) = [title_line self]).
  { assert (Et : title_line self = ("## " ++ title self) ++ LF :: [])
      by apply app_assoc.
    unfold rows_of. rewrite translate_without_cr.
    - rewrite Et, rows_from_line; [reflexivity|].
      rewrite in_app_iff. simpl. intuition discriminate.
    - unfold title_line. rewrite !in_app_iff. simpl. intuition discriminate. }
  rewrite R. simpl. unfold is_header, title_line.
  change (startswith "#" ("## " ++ title self ++ [LF])) with true.
  rewrite !count_app.
  change (count "#" "## ") with 2. change (count "#" [LF]) with 0.
  rewrite andb_true_l.
  replace (Z.of_nat (2 + (count "#" (title self) + 0)))
    with (2 + Z.of_nat (count "#" (title self)))%Z by lia.
  reflexivity.
Qed.

Lemma rendered_table_as_source_witness :
  yielded (find_headers
             (holding (docs "toc.md")
                ("## Table of contents" ++ [LF] ++ "- [A](#a)" ++ [LF]
                   ++ "    - [B](#b)" ++ [LF])
                docs_world)
             (default_table [docs "toc.md"]) (docs "toc.md"))
  = ["## Table of contents" ++ [LF]].
Proof.
  apply (rendered_table_as_source docs_world (default_table [readme_md])
           ("## Table of contents" ++ [LF] ++ "- [A](#a)" ++ [LF]
              ++ "    - [B](#b)" ++ [LF])
           _ (docs "toc.md") None (default_table [docs "toc.md"])).
  - reflexivity.
  - reflexivity.
  - simpl. intuition discriminate.
  - simpl. intuition discriminate.
Defined.

